(** * NativeEmbedder: a shallow embedding of
      server/utils/EmbeddingEngines/native/index.js

    The class wraps a local feature-extraction model.  Its methods are
    embedded here as functions in a state-and-exception monad over a
    [World] that holds everything the methods read or mutate: the
    [modelDownloaded] field of the instance, the [env] object of the
    transformers library, the files on disk, the console, and the
    requests made to the library so far.

    What the file leaves outside the embedder is taken as an interface
    ([Platform]): the registry constant of ./constants, the [toChunks]
    helper of ../../helpers, the uuid generator, the library call that
    loads a pipeline, and whether the object a pipeline resolves with has
    a [length] property.  How much the disk can take is a second
    interface ([Disk]).

    Modelling conventions.
    - A vector is a list over an abstract component type [float]; a
      tensor returned by a pipeline is the list of its row vectors, and
      [output.tolist()] is the tensor itself.  The class of that object is
      the library's: [output.length] is its number of rows when the
      platform says the object has a [length], and [undefined] when it has
      none, as for the Tensor of the transformers library (which has
      dims, type, data and size).  The inference call is taken to
      resolve.
    - The scratch file is the sequence of fragments appended to it: the
      three punctuation strings and [JSON.stringify] of a batch, which
      [JSON.parse] gives back as it was.  A call writes one opening
      bracket, then batches that are each followed by a comma or by the
      closing bracket; on such text, in a file that was new, [parse]
      succeeds exactly when [JSON.parse] does.
    - [disk] holds the regular files of the tmp directory, the scratch
      files.  Directories (the tmp directory that [#tempfilePath] creates
      when it is missing) and the cache directory into which the library
      downloads a model are not part of it.
    - [appendFile] creates the file when missing.  It fails, with the
      error swallowed by [#writeToTempfile], once the file holds as many
      fragments as the [Disk] can take.  The properties are stated for the
      disk without a limit ([reliable]) unless they say otherwise.
    - The registry is a plain object: a finite map for its own
      properties, on top of the members every object inherits from
      [Object.prototype]. *)

From Stdlib Require Import ZArith.
From stdpp Require Import gmap strings list pretty.

Local Open Scope Z_scope.

(** ** Data *)

Module ApiInfo.
Record t := mk {
  id : string;
  name : string;
  description : string;
  lang : string;
  size : string;
  modelCard : string;
}.
End ApiInfo.

(** One entry of [supportedModels] (see the JSDoc type of the static
    field, and the two limits the constructor reads from it). *)
Module ModelDescriptor.
Record t := mk {
  maxConcurrentChunks : nat;
  embeddingMaxChunkLength : nat;
  chunkPrefix : string;
  queryPrefix : string;
  apiInfo : ApiInfo.t;
}.
End ModelDescriptor.

(** What the catch blocks and the caller can observe as a thrown value. *)
Inductive exn :=
  | ENOENT (path : string)      (* fs.readFileSync on a missing file *)
  | SyntaxError                 (* JSON.parse on malformed text *)
  | Underlying (e : string)     (* whatever the library rejected with *)
  | ThrownNull                  (* [throw null] *)
  | WriteFailed (e : string).   (* fs.promises.appendFile rejecting *)

Inductive result (A : Type) :=
  | Ret (a : A)
  | Throw (e : exn).
Arguments Ret {A} a.
Arguments Throw {A} e.

(** One call of the library's [pipeline("feature-extraction", ...)], with
    the state of the library's [env] at the time of the call. *)
Record Request := mkRequest {
  req_model : string;
  req_hostOverride : option string;
  req_remoteHost : string;
  req_remotePathTemplate : string;
  req_progress : bool;          (* was a progress_callback supplied? *)
}.

Inductive line :=
  | Log (text : string)         (* this.log *)
  | Err (text : string).        (* console.error *)

(** The instance fields that are assigned once, in the constructor. *)
Record NativeEmbedder := mkEmbedder {
  model : string;
  modelInfo : ModelDescriptor.t;
  maxConcurrentChunks : nat;
  embeddingMaxChunkLength : nat;
}.

Definition defaultModel : string := "Xenova/all-MiniLM-L6-v2".
Definition fallbackHost : string := "https://cdn.anythingllm.com/support/models/".

(** The names every plain object inherits from [Object.prototype].  Each
    of them reads as a function (the prototype itself for the last one): a
    truthy value that is not a descriptor. *)
Definition Object_prototype : list string :=
  [ "constructor"; "hasOwnProperty"; "isPrototypeOf"; "propertyIsEnumerable";
    "toLocaleString"; "toString"; "valueOf"; "__defineGetter__";
    "__defineSetter__"; "__lookupGetter__"; "__lookupSetter__"; "__proto__" ].

(** What reading a property of the registry object gives, when it is not
    [undefined]. *)
Inductive member :=
  | Own (d : ModelDescriptor.t)       (* an entry of the registry *)
  | Inherited (key : string).         (* a member of Object.prototype *)

(** How many fragments a file can take before an append to it fails;
    [None] when there is no limit. *)
Class Disk := { capacity : option nat }.

(** JavaScript truthiness of a string, and of [string | null]. *)
Definition truthy (s : string) : bool :=
  match s with EmptyString => false | _ => true end.

Definition truthy_opt (o : option string) : bool :=
  match o with Some s => truthy s | None => false end.

Section Embedder.
Context {float : Type}.

Definition vector := list float.
Definition tensor := list vector.
Definition pipeline := list string → tensor.

(** What is appended to the scratch file. *)
Inductive fragment :=
  | Open                      (* "[" *)
  | Close                     (* "]" *)
  | Comma                     (* "," *)
  | Batch (vs : tensor).      (* JSON.stringify(output.tolist()) *)

(** The collaborators that live outside index.js. *)
Class Platform := {
  (* the constant of ./constants *)
  SUPPORTED_NATIVE_EMBEDDING_MODELS : gmap string ModelDescriptor.t;
  (* the helper of ../../helpers *)
  toChunks : list string → nat → list (list string);
  (* the uuid drawn by the n-th call of v4 *)
  v4 : nat → string;
  (* the resolved tmp directory under the storage directory *)
  storageTmp : string;
  (* the outcome of the library's pipeline(...) for a request made after
     n earlier ones: the pipeline it resolves with, or what it rejects
     with *)
  transformers : nat → Request → string + pipeline;
  (* whether the object a pipeline call resolves with has a length
     property, which is then its number of rows; the Tensor class of the
     transformers library has none *)
  Tensor_has_length : bool;
}.

Record World := mkWorld {
  modelDownloaded : bool;               (* this.modelDownloaded *)
  remoteHost : string;                  (* env.remoteHost *)
  remotePathTemplate : string;          (* env.remotePathTemplate *)
  disk : gmap string (list fragment);   (* the files of the tmp directory *)
  console : list line;
  requests : list Request;              (* oldest first *)
  uuids : nat;                          (* calls of v4 so far *)
}.

(** ** The monad *)

Definition M (A : Type) : Type := World → result A * World.

Definition ret {A} (a : A) : M A := fun w => (Ret a, w).

Definition throw {A} (e : exn) : M A := fun w => (Throw e, w).

Definition bind {A B} (m : M A) (k : A → M B) : M B :=
  fun w =>
    match m w with
    | (Ret a, w') => k a w'
    | (Throw e, w') => (Throw e, w')
    end.

Definition try_catch {A} (m : M A) (handler : exn → M A) : M A :=
  fun w =>
    match m w with
    | (Ret a, w') => (Ret a, w')
    | (Throw e, w') => handler e w'
    end.

Definition when (b : bool) (m : M unit) : M unit :=
  if b then m else ret tt.

Definition gets {A} (f : World → A) : M A := fun w => (Ret (f w), w).

Definition modify (f : World → World) : M unit := fun w => (Ret tt, f w).

End Embedder.

Arguments Platform : clear implicits.
Arguments World : clear implicits.
Arguments fragment : clear implicits.
Arguments pipeline : clear implicits.
Arguments tensor : clear implicits.
Arguments vector : clear implicits.

Arguments M : clear implicits.

Notation "'let!' x ':=' m 'in' k" := (bind m (fun x => k))
  (at level 10, x name, m at level 100, k at level 200,
   format "'[v' 'let!'  x  ':='  m  'in' '/' k ']'").
Notation "'do!' m 'in' k" := (bind m (fun _ => k))
  (at level 10, m at level 100, k at level 200,
   format "'[v' 'do!'  m  'in' '/' k ']'").

(** ** The methods of the class *)

Section Methods.
Context {float : Type} `{!Platform float} `{!Disk}.

Abbreviation World := (World float).
Abbreviation M := (M float).
Abbreviation pipeline := (pipeline float).
Abbreviation fragment := (fragment float).

(** Field updates of the world. *)
Definition set_modelDownloaded (b : bool) (w : World) : World :=
  mkWorld b (remoteHost w) (remotePathTemplate w) (disk w) (console w)
          (requests w) (uuids w).

Definition set_env (host template : string) (w : World) : World :=
  mkWorld (modelDownloaded w) host template (disk w) (console w)
          (requests w) (uuids w).

Definition set_disk (d : gmap string (list fragment)) (w : World) : World :=
  mkWorld (modelDownloaded w) (remoteHost w) (remotePathTemplate w) d
          (console w) (requests w) (uuids w).

Definition print (l : line) (w : World) : World :=
  mkWorld (modelDownloaded w) (remoteHost w) (remotePathTemplate w) (disk w)
          (console w ++ [l]) (requests w) (uuids w).

Definition record_request (r : Request) (w : World) : World :=
  mkWorld (modelDownloaded w) (remoteHost w) (remotePathTemplate w) (disk w)
          (console w) (requests w ++ [r]) (uuids w).

Definition next_uuid (w : World) : World :=
  mkWorld (modelDownloaded w) (remoteHost w) (remotePathTemplate w) (disk w)
          (console w) (requests w) (S (uuids w)).

(** [log(text)]: the colour prefix of the line is left out. *)
Definition log (text : string) : M unit := modify (print (Log text)).

Definition console_error (text : string) : M unit := modify (print (Err text)).

Definition exn_toString (e : exn) : string :=
  match e with
  | ENOENT path => "Error: ENOENT: no such file or directory, open '" +:+ path +:+ "'"
  | SyntaxError => "SyntaxError: Unexpected end of JSON input"
  | Underlying e => e
  | ThrownNull => "null"
  | WriteFailed e => e
  end.

(** *** Model resolution *)

(** [supportedModels[key]]: an own property first, then the prototype;
    [undefined] is [None]. *)
Definition get_member (key : string) : option member :=
  match SUPPORTED_NATIVE_EMBEDDING_MODELS !! key with
  | Some d => Some (Own d)
  | None =>
      if bool_decide (key ∈ Object_prototype) then Some (Inherited key)
      else None
  end.

(** [process.env.EMBEDDING_MODEL_PREF] is the argument: [None] when the
    variable is unset.  Every member is truthy. *)
Definition getEmbeddingModel (EMBEDDING_MODEL_PREF : option string) : string :=
  let envModel := default defaultModel EMBEDDING_MODEL_PREF in
  match get_member envModel with
  | Some _ => envModel
  | None => defaultModel
  end.

(** [undefined] is [None]. *)
Definition getEmbedderInfo (EMBEDDING_MODEL_PREF : option string)
  : option member :=
  let model := getEmbeddingModel EMBEDDING_MODEL_PREF in
  get_member model.

(** [supportedModels[this.model]?.chunkPrefix], or the empty string when
    that is undefined or empty: an inherited member has no such property,
    like a missing entry. *)
Definition embeddingPrefix (this : NativeEmbedder) : string :=
  match SUPPORTED_NATIVE_EMBEDDING_MODELS !! model this with
  | Some d =>
      if truthy (ModelDescriptor.chunkPrefix d)
      then ModelDescriptor.chunkPrefix d else EmptyString
  | None => EmptyString
  end.

(** [supportedModels[this.model]?.queryPrefix], or the empty string when
    that is undefined or empty: an inherited member has no such property,
    like a missing entry. *)
Definition queryPrefix (this : NativeEmbedder) : string :=
  match SUPPORTED_NATIVE_EMBEDDING_MODELS !! model this with
  | Some d =>
      if truthy (ModelDescriptor.queryPrefix d)
      then ModelDescriptor.queryPrefix d else EmptyString
  | None => EmptyString
  end.

(** *** The scratch file *)

(** [path.resolve(tmpPath, filename)] *)
Definition tmpFile (filename : string) : string :=
  storageTmp +:+ "/" +:+ filename.

(** The path [#tempfilePath] returns when called in [w]. *)
Definition scratchPath (w : World) : string :=
  tmpFile (v4 (uuids w) +:+ ".tmp").

(** [#tempfilePath]: a new name under the tmp directory; creating that
    directory when it is missing leaves the files as they are. *)
Definition tempfilePath : M string :=
  let! n := gets uuids in
  let filename := v4 n +:+ ".tmp" in
  do! modify next_uuid in
  ret (tmpFile filename).

(** [fs.promises.appendFile]: the file is created when it is missing. *)
Definition append_fragment (filePath : string) (data : fragment) (w : World)
  : World :=
  set_disk (<[filePath := default [] (disk w !! filePath) ++ [data]]> (disk w)) w.

Definition appendFile (filePath : string) (data : fragment) : M unit :=
  fun w =>
    let held := length (default [] (disk w !! filePath)) in
    match capacity with
    | Some limit =>
        if (limit <=? held)%nat
        then (Throw (WriteFailed "Error: ENOSPC: no space left on device, write"), w)
        else (Ret tt, append_fragment filePath data w)
    | None => (Ret tt, append_fragment filePath data w)
    end.

Definition writeToTempfile (filePath : string) (data : fragment) : M unit :=
  try_catch (appendFile filePath data)
    (fun e => console_error ("Error writing to tempfile: " +:+ exn_toString e)).

Definition readFileSync (filePath : string) : M (list fragment) :=
  let! d := gets disk in
  match d !! filePath with
  | Some content => ret content
  | None => throw (ENOENT filePath)
  end.

(** [fs.rmSync(path, { force: true })] *)
Definition rmSync (filePath : string) : M unit :=
  modify (fun w => set_disk (delete filePath (disk w)) w).

(** The elements of a JSON array after its opening bracket. *)
Fixpoint parse_elements (text : list fragment) : option (list (tensor float)) :=
  match text with
  | Batch b :: Close :: [] => Some [b]
  | Batch b :: Comma :: rest => cons b <$> parse_elements rest
  | _ => None
  end.

Definition parse (text : list fragment) : option (list (tensor float)) :=
  match text with
  | Open :: Close :: [] => Some []
  | Open :: rest => parse_elements rest
  | _ => None
  end.

Definition JSON_parse (text : list fragment) : M (list (tensor float)) :=
  match parse text with
  | Some v => ret v
  | None => throw SyntaxError
  end.

(** *** Acquisition *)

Record FetchResponse := mkFetchResponse {
  fr_pipeline : option pipeline;
  fr_retry : option string;         (* [false] is [None] *)
  fr_error : option exn;
}.

(** The library's [pipeline(...)] itself: the reply is the platform's,
    for the request as the library sees it now. *)
Definition library_pipeline (this : NativeEmbedder)
    (hostOverride : option string) (progress_callback : bool) : M pipeline :=
  fun w =>
    let r := mkRequest (model this) hostOverride (remoteHost w)
               (remotePathTemplate w) progress_callback in
    match transformers (length (requests w)) r with
    | inr p => (Ret p, record_request r w)
    | inl e => (Throw (Underlying e), record_request r w)
    end.

(** The local [pipeline] wrapper of [#fetchWithHost]: the import is
    taken to resolve. *)
Definition import_and_call (this : NativeEmbedder)
    (hostOverride : option string) (progress_callback : bool) : M pipeline :=
  let! downloaded := gets modelDownloaded in
  do! when (negb downloaded)
        (do! match hostOverride with
             | Some host => when (truthy host) (modify (set_env host "{model}/"))
             | None => ret tt
             end in
         let! host := gets remoteHost in
         log ("Downloading " +:+ model this +:+ " from " +:+ host)) in
  library_pipeline this hostOverride progress_callback.

Definition fetchWithHost (this : NativeEmbedder) (hostOverride : option string)
  : M FetchResponse :=
  try_catch
    (let! downloaded := gets modelDownloaded in
     let! p := import_and_call this hostOverride (negb downloaded) in
     ret (mkFetchResponse (Some p) None None))
    (fun error =>
       ret (mkFetchResponse None
              (match hostOverride with
               | None => Some fallbackHost
               | Some _ => None
               end)
              (Some error))).

Definition retry_toString (retry : option string) : string :=
  match retry with Some host => host | None => "false" end.

Definition throw_value {A} (e : option exn) : M A :=
  throw (default ThrownNull e).

Definition embedderClient (this : NativeEmbedder) : M pipeline :=
  let! downloaded := gets modelDownloaded in
  do! when (negb downloaded)
        (log "The native embedding model has never been run and will be downloaded right now. Subsequent runs will be faster. (~23MB)") in
  let! fetchResponse := fetchWithHost this None in
  match fr_pipeline fetchResponse with
  | Some p =>
      do! modify (set_modelDownloaded true) in
      ret p
  | None =>
      do! log ("Failed to download model from primary URL. Using fallback "
               +:+ retry_toString (fr_retry fetchResponse)) in
      let! fetchResponse :=
        (if truthy_opt (fr_retry fetchResponse)
         then fetchWithHost this (fr_retry fetchResponse)
         else ret fetchResponse) in
      match fr_pipeline fetchResponse with
      | Some p =>
          do! modify (set_modelDownloaded true) in
          ret p
      | None => throw_value (fr_error fetchResponse)
      end
  end.

(** *** Prefix application *)

(** The argument of [embedTextInput]: [string | string[]]. *)
Inductive TextInput :=
  | Str (text : string)
  | Arr (texts : list string).

Definition applyQueryPrefix (this : NativeEmbedder) (textInput : TextInput)
  : TextInput :=
  if negb (truthy (queryPrefix this)) then textInput
  else
    match textInput with
    | Arr texts => Arr (map (fun text => queryPrefix this +:+ text) texts)
    | Str text => Str (queryPrefix this +:+ text)
    end.

(** *** The chunked embedding pipeline *)

(** [output.length]: [undefined] is [None]. *)
Definition Tensor_length (output : tensor float) : option Z :=
  if Tensor_has_length then Some (Z.of_nat (length output)) else None.

(** [output.length === 0] *)
Definition length_is_zero (output : tensor float) : bool :=
  match Tensor_length output with
  | Some n => n =? 0
  | None => false
  end.

(** One turn of the [for] loop of [embedChunks]. *)
Definition embedChunk (this : NativeEmbedder) (tmpFilePath : string)
    (chunkLen idx : Z) (chunk : list string) : M unit :=
  do! when (idx =? 0) (writeToTempfile tmpFilePath Open) in
  let! pipeline := embedderClient this in
  let output := pipeline chunk in
  if length_is_zero output then ret tt
  else
    let data := Batch output in
    do! writeToTempfile tmpFilePath data in
    do! log ("Embedded Chunk Group " +:+ pretty (idx + 1) +:+ " of "
             +:+ pretty chunkLen) in
    do! when (negb (chunkLen - 1 =? idx)) (writeToTempfile tmpFilePath Comma) in
    when (chunkLen - 1 =? idx) (writeToTempfile tmpFilePath Close).

(** The loop over [chunks.entries()], from index [idx] on. *)
Fixpoint embedLoop (this : NativeEmbedder) (tmpFilePath : string)
    (chunkLen idx : Z) (chunks : list (list string)) : M unit :=
  match chunks with
  | [] => ret tt
  | chunk :: rest =>
      do! embedChunk this tmpFilePath chunkLen idx chunk in
      embedLoop this tmpFilePath chunkLen (idx + 1) rest
  end.

(** [null] is [None]. *)
Definition embedChunks (this : NativeEmbedder) (textChunks : list string)
  : M (option (list (vector float))) :=
  let! tmpFilePath := tempfilePath in
  let chunks := toChunks textChunks (maxConcurrentChunks this) in
  let chunkLen := Z.of_nat (length chunks) in
  do! embedLoop this tmpFilePath chunkLen 0 chunks in
  let! text := readFileSync tmpFilePath in
  let! embeddingResults := JSON_parse text in
  do! rmSync tmpFilePath in
  ret (if (0 <? Z.of_nat (length embeddingResults))
       then Some (concat embeddingResults) else None).

(** [result?.[0] || []]: an array is always truthy. *)
Definition embedTextInput (this : NativeEmbedder) (textInput : TextInput)
  : M (vector float) :=
  let textInput := applyQueryPrefix this textInput in
  let! result :=
    embedChunks this
      (match textInput with Arr texts => texts | Str text => [text] end) in
  ret (match result with
       | Some (first :: _) => first
       | _ => []
       end).

(** *** What a run leaves behind

    These functions are not part of the class: they name, for the
    statements below, what the loop appends to the scratch file given
    the output of each batch, and two lines of the console. *)

(** What one turn appends after inference returned [output]. *)
Definition batch_fragments (chunkLen idx : Z) (output : tensor float)
  : list fragment :=
  if length_is_zero output then []
  else [Batch output; if (chunkLen - 1 =? idx) then Close else Comma].

(** What the turns from index [idx] on append after the opening bracket. *)
Fixpoint loop_fragments (chunkLen idx : Z) (outputs : list (tensor float))
  : list fragment :=
  match outputs with
  | [] => []
  | output :: rest =>
      batch_fragments chunkLen idx output
        ++ loop_fragments chunkLen (idx + 1) rest
  end.

(** A file after [data] has been appended to it piece by piece: nothing
    appended leaves it as it was, missing ([None]) or not. *)
Definition extend (file : option (list fragment)) (data : list fragment)
  : option (list fragment) :=
  match data with
  | [] => file
  | _ => Some (default [] file ++ data)
  end.

Definition fallback_notice : line :=
  Log ("Failed to download model from primary URL. Using fallback " +:+ fallbackHost).


(** [output] is what some pipeline handed out by the library returns on
    [chunk]. *)
Definition produced (chunk : list string) (output : tensor float) : Prop :=
  ∃ n r p, transformers n r = inr p ∧ output = p chunk.

(** *** The remaining static members *)

(** [static _getEmbeddingModel()]: the same lines as [getEmbeddingModel]. *)
Definition _getEmbeddingModel (EMBEDDING_MODEL_PREF : option string) : string :=
  let envModel := default defaultModel EMBEDDING_MODEL_PREF in
  match get_member envModel with
  | Some _ => envModel
  | None => defaultModel
  end.

(** [Object.values(supportedModels).map((model) => model.apiInfo)]:
    own properties only.  The
    list comes in the order of the finite map, not in the insertion order
    of the object: only statements that do not depend on the order are
    made about it. *)
Definition availableModels : list ApiInfo.t :=
  ModelDescriptor.apiInfo <$> (map_to_list SUPPORTED_NATIVE_EMBEDDING_MODELS).*2.

End Methods.

(** The disk without a limit: every append succeeds.  It is the disk of
    every statement that names no other. *)
#[global] Instance reliable : Disk := {| capacity := None |}.

(** A disk on which a file takes [limit] fragments and no more. *)
Definition fills_after (limit : nat) : Disk := {| capacity := Some limit |}.

(** ** The helper and a platform to run the methods on *)

(** Modelled from the spec: [toChunks] of ../../helpers, which is not part
    of this file.  The spec has it partition the list into ordered batches
    of size at most [size], preserving the order across and within
    batches; its scenarios (60 texts by 25 give batches of 25, 25 and 10)
    fix the batches as consecutive slices of [size].  The spec has [size]
    positive; no batch is produced for [size = 0] here. *)
Fixpoint toChunks_slices (fuel : nat) (arr : list string) (size : nat)
  : list (list string) :=
  match fuel, arr with
  | S fuel, _ :: _ => take size arr :: toChunks_slices fuel (drop size arr) size
  | _, _ => []
  end.

(** Modelled from the spec: [toChunks(arr, size)], by the slices above. *)
Definition toChunks_spec (arr : list string) (size : nat) : list (list string) :=
  match size with
  | O => []
  | S _ => toChunks_slices (length arr) arr size
  end.

(** A registry of the shape the JSDoc of [supportedModels] gives.  The
    entries of ./constants are not part of this file; these two are
    enough to run the methods: the default model without prefixes, and a
    model with both prefixes and a batch limit of two. *)
Definition sample_default : ModelDescriptor.t :=
  ModelDescriptor.mk 25 1000 EmptyString EmptyString
    (ApiInfo.mk "Xenova/all-MiniLM-L6-v2" "all-MiniLM-L6-v2" EmptyString "English" "23MB" EmptyString).

Definition sample_prefixed : ModelDescriptor.t :=
  ModelDescriptor.mk 2 1000 "search_document: " "search_query: "
    (ApiInfo.mk "Xenova/nomic-embed-text-v1" "nomic-embed-text-v1" EmptyString "English" "139MB" EmptyString).

Definition sample_registry : gmap string ModelDescriptor.t :=
  <[ "Xenova/nomic-embed-text-v1" := sample_prefixed ]>
    (<[ defaultModel := sample_default ]> ∅).

(** A stand-in for inference: one vector per text, holding its length. *)
Definition embed_length (text : string) : vector Z :=
  [Z.of_nat (String.length text)].

Definition infer_lengths : pipeline Z := map embed_length.


(** Inference that returns nothing for a batch starting with the empty
    text. *)
Definition infer_nonblank : pipeline Z :=
  fun chunk =>
    match chunk with
    | EmptyString :: _ => []
    | _ => map embed_length chunk
    end.

Definition sample_platform (reply : nat → Request → string + pipeline Z)
  : Platform Z :=
  {| SUPPORTED_NATIVE_EMBEDDING_MODELS := sample_registry;
     toChunks := toChunks_spec;
     v4 := fun n => "uuid-" +:+ pretty n;
     storageTmp := "/storage/tmp";
     transformers := reply;
     Tensor_has_length := false |}.

(** Every source answers. *)
Definition online : Platform Z :=
  sample_platform (fun _ _ => inr infer_lengths).

(** Every source answers, with the inference that drops blank batches. *)
Definition online_nonblank : Platform Z :=
  sample_platform (fun _ _ => inr infer_nonblank).


(** Only an overridden host answers. *)
Definition primary_down : Platform Z :=
  sample_platform (fun _ r =>
    match req_hostOverride r with
    | Some _ => inr infer_lengths
    | None => inl "primary unreachable"
    end).

(** No source answers. *)
Definition offline : Platform Z :=
  sample_platform (fun _ r =>
    match req_hostOverride r with
    | Some _ => inl "fallback unreachable"
    | None => inl "primary unreachable"
    end).

(** The sources answer for the first [n] requests only. *)
Definition online_until (n : nat) : Platform Z :=
  sample_platform (fun i r =>
    if (i <? n)%nat then inr infer_lengths
    else match req_hostOverride r with
         | Some _ => inl "fallback unreachable"
         | None => inl "primary unreachable"
         end).

Definition boot : World Z :=
  mkWorld false "https://huggingface.co/" "{model}/resolve/{revision}/" ∅ [] [] 0.

Definition small_batches : NativeEmbedder :=
  mkEmbedder "Xenova/nomic-embed-text-v1" sample_prefixed 2 1000.

Definition default_embedder : NativeEmbedder :=
  mkEmbedder defaultModel sample_default 25 1000.

(** The inputs of the runs below, and the scratch path of the first call
    on the sample platform. *)
Definition five_texts : list string := ["a"; "bb"; "ccc"; "dddd"; "eeeee"].


Definition scratch0 : string := "/storage/tmp/uuid-0.tmp".

(** * Properties *)

(** ** The read-back, on any disk *)

Section Readback.
Context {float : Type} `{!Platform float} `{!Disk}.

Abbreviation World := (World float).
Abbreviation fragment := (fragment float).

Implicit Types (this : NativeEmbedder) (w : World).

(** The call, in terms of its loop: the outcomes of the read-back. *)
Lemma embedChunks_run this (textChunks : list string) w :
  let tmpFilePath := scratchPath w in
  let chunks := toChunks textChunks (maxConcurrentChunks this) in
  embedChunks this textChunks w =
    match embedLoop this tmpFilePath (Z.of_nat (length chunks)) 0 chunks
            (next_uuid w) with
    | (Ret _, w1) =>
        match disk w1 !! tmpFilePath with
        | Some text =>
            match parse text with
            | Some embeddingResults =>
                (Ret (if 0 <? Z.of_nat (length embeddingResults)
                      then Some (concat embeddingResults) else None),
                 set_disk (delete tmpFilePath (disk w1)) w1)
            | None => (Throw SyntaxError, w1)
            end
        | None => (Throw (ENOENT tmpFilePath), w1)
        end
    | (Throw e, w1) => (Throw e, w1)
    end.
Proof.
  unfold embedChunks, tempfilePath, readFileSync, JSON_parse, rmSync,
    bind, ret, throw, gets, modify.
  simpl. fold (scratchPath w).
  destruct (embedLoop this _ _ 0 _ (next_uuid w)) as [[[]|e] w1]; [|done].
  destruct (disk w1 !! scratchPath w) as [text|]; [|done].
  destruct (parse text); done.
Qed.

(** C3 (as amended).  On a new scratch name, when all batches have
    completed and the scratch file is read back: if its content parses,
    the file is deleted and the call returns; if it does not parse, the
    call throws the parse error and the file is still on disk, as the
    loop left it. *)
Theorem scratch_file_deleted_after_parse this (textChunks : list string)
    w w1 (text : list fragment) :
  let tmpFilePath := scratchPath w in
  let chunks := toChunks textChunks (maxConcurrentChunks this) in
  disk w !! tmpFilePath = None →
  embedLoop this tmpFilePath (Z.of_nat (length chunks)) 0 chunks (next_uuid w)
    = (Ret (), w1) →
  disk w1 !! tmpFilePath = Some text →
  match parse text with
  | Some _ =>
      ∃ result w',
        embedChunks this textChunks w = (Ret result, w') ∧
        disk w' !! tmpFilePath = None
  | None =>
      embedChunks this textChunks w = (Throw SyntaxError, w1) ∧
      disk w1 !! tmpFilePath = Some text
  end.
Proof.
  intros tmpFilePath chunks _ Hloop Hread.
  rewrite embedChunks_run. cbv zeta. fold tmpFilePath chunks.
  rewrite Hloop, Hread.
  destruct (parse text) as [embeddingResults|]; [|done].
  eexists _, _. split; [done|]. simpl. apply lookup_delete_eq.
Qed.

End Readback.

(** ** On the disk without a limit *)

Section Properties.
Context {float : Type} `{!Platform float}.

Abbreviation World := (World float).
Abbreviation pipeline := (pipeline float).
Abbreviation fragment := (fragment float).

Implicit Types (this : NativeEmbedder) (w : World) (p : pipeline).

(** ** Model resolution *)

Lemma get_member_own (key : string) (d : ModelDescriptor.t) :
  SUPPORTED_NATIVE_EMBEDDING_MODELS !! key = Some d →
  get_member key = Some (Own d).
Proof. intros Hd. unfold get_member. by rewrite Hd. Qed.

Lemma get_member_inherited (key : string) :
  SUPPORTED_NATIVE_EMBEDDING_MODELS !! key = None →
  key ∈ Object_prototype →
  get_member key = Some (Inherited key).
Proof.
  intros Hd Hin. unfold get_member. rewrite Hd. by rewrite bool_decide_eq_true_2.
Qed.

Lemma get_member_undefined (key : string) :
  SUPPORTED_NATIVE_EMBEDDING_MODELS !! key = None →
  key ∉ Object_prototype →
  get_member key = None.
Proof.
  intros Hd Hin. unfold get_member. rewrite Hd. by rewrite bool_decide_eq_false_2.
Qed.

Lemma getEmbeddingModel_supported (id : string) :
  is_Some (SUPPORTED_NATIVE_EMBEDDING_MODELS !! id) →
  getEmbeddingModel (Some id) = id.
Proof.
  intros [d Hd]. unfold getEmbeddingModel. simpl.
  by rewrite (get_member_own _ _ Hd).
Qed.

Lemma getEmbeddingModel_unsupported (id : string) :
  SUPPORTED_NATIVE_EMBEDDING_MODELS !! id = None →
  id ∉ Object_prototype →
  getEmbeddingModel (Some id) = defaultModel.
Proof.
  intros Hd Hin. unfold getEmbeddingModel. simpl.
  by rewrite get_member_undefined.
Qed.

Lemma getEmbeddingModel_unset : getEmbeddingModel None = defaultModel.
Proof.
  unfold getEmbeddingModel. simpl. by destruct (get_member defaultModel).
Qed.

(** Resolution away from the inherited names.  With the default model
    registered and every entry filed under its own identifier: a supported
    identifier resolves to the entry registered under it, whose identifier
    is the input; an unset identifier, and an unsupported one that is not
    the name of a member of Object.prototype (the empty string included),
    resolves to the default model's entry. *)
Lemma getEmbedderInfo_resolves (d0 : ModelDescriptor.t) :
  SUPPORTED_NATIVE_EMBEDDING_MODELS !! defaultModel = Some d0 →
  (∀ k d, SUPPORTED_NATIVE_EMBEDDING_MODELS !! k = Some d →
          ApiInfo.id (ModelDescriptor.apiInfo d) = k) →
  (∀ id d, SUPPORTED_NATIVE_EMBEDDING_MODELS !! id = Some d →
     getEmbeddingModel (Some id) = id ∧
     getEmbedderInfo (Some id) = Some (Own d) ∧
     ApiInfo.id (ModelDescriptor.apiInfo d) = id) ∧
  (∀ pref,
     pref = None ∨
     (∃ id, pref = Some id ∧
            SUPPORTED_NATIVE_EMBEDDING_MODELS !! id = None ∧
            id ∉ Object_prototype) →
     getEmbeddingModel pref = defaultModel ∧
     getEmbedderInfo pref = Some (Own d0)).
Proof.
  intros Hdefault Hkeys. split.
  - intros id d Hd.
    assert (getEmbeddingModel (Some id) = id) as Hid
      by (apply getEmbeddingModel_supported; eauto).
    unfold getEmbedderInfo. rewrite Hid. split; [done|].
    split; [by apply get_member_own|eauto].
  - intros pref Hpref.
    assert (getEmbeddingModel pref = defaultModel) as Hm.
    { destruct Hpref as [-> | (id & -> & Hnone & Hnot)].
      - apply getEmbeddingModel_unset.
      - by apply getEmbeddingModel_unsupported. }
    unfold getEmbedderInfo. rewrite Hm. split; [done|]. by apply get_member_own.
Qed.

(** C6.  The code on an unsupported identifier that names a member of
    Object.prototype ("toString", "constructor", ...): the lookup finds
    the inherited member, which is truthy, so the identifier is returned as
    the model and the inherited member as its info.  The default model is
    not substituted and no descriptor is returned. *)
Theorem getEmbeddingModel_inherited_name (key : string) :
  key ∈ Object_prototype →
  SUPPORTED_NATIVE_EMBEDDING_MODELS !! key = None →
  getEmbeddingModel (Some key) = key ∧
  getEmbedderInfo (Some key) = Some (Inherited key) ∧
  ∀ d, getEmbedderInfo (Some key) ≠ Some (Own d).
Proof.
  intros Hin Hnone.
  assert (getEmbeddingModel (Some key) = key) as Hm.
  { unfold getEmbeddingModel. simpl. by rewrite get_member_inherited. }
  assert (getEmbedderInfo (Some key) = Some (Inherited key)) as Hi.
  { unfold getEmbedderInfo. rewrite Hm. by apply get_member_inherited. }
  split; [done|]. split; [done|]. intros d. by rewrite Hi.
Qed.

(** ** Prefix application *)

Lemma truthy_false (s : string) : truthy s = false ↔ s = EmptyString.
Proof. destruct s; simpl; split; congruence. Qed.

(** C7.  With an empty query prefix the input comes back unchanged;
    otherwise a string comes back as a string and a list as a list of
    the same length, each string being the prefix followed directly by
    the original text. *)
Theorem applyQueryPrefix_prepends this :
  (queryPrefix this = EmptyString → ∀ textInput, applyQueryPrefix this textInput = textInput) ∧
  (queryPrefix this ≠ EmptyString →
     (∀ text, applyQueryPrefix this (Str text) = Str (queryPrefix this +:+ text)) ∧
     (∀ texts, ∃ out,
        applyQueryPrefix this (Arr texts) = Arr out ∧
        length out = length texts ∧
        ∀ i text, texts !! i = Some text →
                  out !! i = Some (queryPrefix this +:+ text))).
Proof.
  unfold applyQueryPrefix. split.
  - intros ->. done.
  - intros Hne.
    assert (truthy (queryPrefix this) = true) as ->.
    { destruct (truthy (queryPrefix this)) eqn:E; [done|].
      by apply truthy_false in E. }
    simpl. split; [done|].
    intros texts. eexists. split; [done|]. split.
    + by rewrite length_map.
    + intros i text Hi. change map with (@fmap list _) at 1.
      by rewrite list_lookup_fmap, Hi.
Qed.

(** ** Acquisition *)

(** One attempt: it never throws, makes exactly one request, and only
    touches the library's [env] and the console, and those only while
    the model is not yet marked as downloaded. *)
Lemma fetchWithHost_spec this (hostOverride : option string) w :
  ∃ r resp w',
    fetchWithHost this hostOverride w = (Ret resp, w') ∧
    requests w' = requests w ++ [r] ∧
    req_hostOverride r = hostOverride ∧
    req_model r = model this ∧
    req_progress r = negb (modelDownloaded w) ∧
    req_remoteHost r = remoteHost w' ∧
    modelDownloaded w' = modelDownloaded w ∧
    disk w' = disk w ∧
    uuids w' = uuids w ∧
    (if modelDownloaded w
     then remoteHost w' = remoteHost w ∧
          remotePathTemplate w' = remotePathTemplate w ∧
          console w' = console w
     else remoteHost w' = (if truthy_opt hostOverride
                           then default EmptyString hostOverride else remoteHost w) ∧
          console w' = console w ++
            [Log ("Downloading " +:+ model this +:+ " from " +:+ remoteHost w')]) ∧
    match transformers (length (requests w)) r with
    | inr p => resp = mkFetchResponse (Some p) None None
    | inl e =>
        resp = mkFetchResponse None
                 (match hostOverride with
                  | None => Some fallbackHost
                  | Some _ => None
                  end)
                 (Some (Underlying e))
    end.
Proof.
  unfold fetchWithHost, import_and_call, library_pipeline, log.
  unfold when, try_catch, bind, ret, gets, modify.
  destruct (modelDownloaded w) eqn:Hd; simpl.
  - match goal with
    | |- context [transformers ?n ?r] =>
        destruct (transformers n r) as [e|p] eqn:Hreply
    end; simpl;
      eexists _, _, _; (split; [reflexivity|]); simpl;
      rewrite ?Hd, ?Hreply; done.
  - destruct hostOverride as [host|]; simpl.
    + destruct (truthy host) eqn:Hhost; simpl;
        match goal with
        | |- context [transformers ?n ?r] =>
            destruct (transformers n r) as [e|p] eqn:Hreply
        end; simpl;
        eexists _, _, _; (split; [reflexivity|]); simpl;
        rewrite ?Hd, ?Hreply; done.
    + match goal with
      | |- context [transformers ?n ?r] =>
          destruct (transformers n r) as [e|p] eqn:Hreply
      end; simpl;
        eexists _, _, _; (split; [reflexivity|]); simpl;
        rewrite ?Hd, ?Hreply; done.
Qed.

(** The whole of [embedderClient], read off the replies of the library
    to its first and, when that one fails, second request. *)
Lemma embedderClient_spec this w :
  ∃ r1 res w',
    embedderClient this w = (res, w') ∧
    disk w' = disk w ∧
    uuids w' = uuids w ∧
    req_hostOverride r1 = None ∧
    req_progress r1 = negb (modelDownloaded w) ∧
    req_remoteHost r1 = remoteHost w ∧
    match transformers (length (requests w)) r1 with
    | inr p =>
        res = Ret p ∧
        requests w' = requests w ++ [r1] ∧
        modelDownloaded w' = true ∧
        (modelDownloaded w = true → console w' = console w)
    | inl e1 =>
        ∃ r2,
          requests w' = requests w ++ [r1; r2] ∧
          req_hostOverride r2 = Some fallbackHost ∧
          req_progress r2 = negb (modelDownloaded w) ∧
          req_remoteHost r2 =
            (if modelDownloaded w then remoteHost w else fallbackHost) ∧
          (modelDownloaded w = true →
             console w' = console w ++ [fallback_notice]) ∧
          match transformers (S (length (requests w))) r2 with
          | inr p => res = Ret p ∧ modelDownloaded w' = true
          | inl e2 =>
              res = Throw (Underlying e2) ∧
              modelDownloaded w' = modelDownloaded w
          end
    end.
Proof.
  exists (mkRequest (model this) None (remoteHost w) (remotePathTemplate w)
            (negb (modelDownloaded w))).
  unfold embedderClient, fetchWithHost, import_and_call, library_pipeline,
    log, throw_value, when, try_catch, bind, ret, throw, gets, modify.
  destruct (modelDownloaded w) eqn:Hd; simpl; rewrite ?Hd; simpl.
  - destruct (transformers (length (requests w)) _) as [e1|p1] eqn:Hreply1;
      simpl; rewrite ?Hd; simpl.
    + rewrite length_app, Nat.add_1_r.
      destruct (transformers (S (length (requests w))) _) as [e2|p2] eqn:Hreply2;
        simpl.
      * eexists _, _. split; [reflexivity|]. simpl.
        do 5 (split; [done|]). eexists. rewrite <- app_assoc. simpl.
        split; [reflexivity|]. simpl. rewrite Hreply2. done.
      * eexists _, _. split; [reflexivity|]. simpl.
        do 5 (split; [done|]). eexists. rewrite <- app_assoc. simpl.
        split; [reflexivity|]. simpl. rewrite Hreply2. done.
    + eexists _, _. split; [reflexivity|]. simpl. done.
  - destruct (transformers (length (requests w)) _) as [e1|p1] eqn:Hreply1;
      simpl; rewrite ?Hd; simpl.
    + rewrite length_app, Nat.add_1_r.
      destruct (transformers (S (length (requests w))) _) as [e2|p2] eqn:Hreply2;
        simpl.
      * eexists _, _. split; [reflexivity|]. simpl.
        do 5 (split; [done|]). eexists. rewrite <- app_assoc. simpl.
        split; [reflexivity|]. simpl. rewrite Hreply2. done.
      * eexists _, _. split; [reflexivity|]. simpl.
        do 5 (split; [done|]). eexists. rewrite <- app_assoc. simpl.
        split; [reflexivity|]. simpl. rewrite Hreply2. done.
    + eexists _, _. split; [reflexivity|]. simpl. done.
Qed.

Lemma embedderClient_disk this w :
  disk (embedderClient this w).2 = disk w.
Proof.
  destruct (embedderClient_spec this w) as (r1 & res & w' & -> & Hk & _).
  done.
Qed.

Lemma embedderClient_throws this w e w' :
  embedderClient this w = (Throw e, w') → ∃ s, e = Underlying s.
Proof.
  destruct (embedderClient_spec this w) as (r1 & res & w1 & E & _ & _ & _ & _ & _ & H).
  intros E'. rewrite E in E'. injection E' as -> ->.
  destruct (transformers (length (requests w)) r1); [|by destruct H].
  destruct H as (r2 & _ & _ & _ & _ & _ & H).
  destruct (transformers (S (length (requests w))) r2); [|by destruct H].
  destruct H as [[= ->] _]. eauto.
Qed.

Lemma embedderClient_produces this w p w' :
  embedderClient this w = (Ret p, w') → ∃ n r, transformers n r = inr p.
Proof.
  destruct (embedderClient_spec this w) as (r1 & res & w1 & E & _ & _ & _ & _ & _ & H).
  intros E'. rewrite E in E'. injection E' as -> ->.
  destruct (transformers (length (requests w)) r1) eqn:E1.
  - destruct H as (r2 & _ & _ & _ & _ & _ & H).
    destruct (transformers (S (length (requests w))) r2) eqn:E2; [by destruct H|].
    destruct H as [[= ->] _]. eauto.
  - destruct H as [[= ->] _]. eauto.
Qed.

Lemma embedderClient_downloaded this w :
  modelDownloaded w = true → modelDownloaded (embedderClient this w).2 = true.
Proof.
  destruct (embedderClient_spec this w) as (r1 & res & w1 & -> & _ & _ & _ & _ & _ & H).
  intros Hd. simpl.
  destruct (transformers (length (requests w)) r1); [|by destruct H as (_ & _ & ? & _)].
  destruct H as (r2 & _ & _ & _ & _ & _ & H).
  destruct (transformers (S (length (requests w))) r2); destruct H; congruence.
Qed.


(** ** The loop of embedChunks *)

(** One turn, in terms of [embedderClient]: the opening bracket goes out
    first; a failed acquisition ends the turn there; an output whose
    [length] reads as zero ends it without a write. *)
Lemma embedChunk_run this (tmpFilePath : string) (chunkLen idx : Z)
    (chunk : list string) w :
  embedChunk this tmpFilePath chunkLen idx chunk w =
    match embedderClient this
            (if idx =? 0 then append_fragment tmpFilePath Open w else w) with
    | (Ret p, w1) =>
        (Ret (),
         if length_is_zero (p chunk) then w1
         else
           append_fragment tmpFilePath
             (if chunkLen - 1 =? idx then Close else Comma)
             (print (Log ("Embedded Chunk Group " +:+ pretty (idx + 1)
                          +:+ " of " +:+ pretty chunkLen))
                (append_fragment tmpFilePath (Batch (p chunk)) w1)))
    | (Throw e, w1) => (Throw e, w1)
    end.
Proof.
  unfold embedChunk, writeToTempfile, appendFile, log, when, try_catch, bind,
    ret, modify.
  destruct (idx =? 0); simpl;
    destruct (embedderClient this _) as [[p|e] w1]; try done;
    destruct (length_is_zero (p chunk)); try done;
    destruct (chunkLen - 1 =? idx); done.
Qed.

Lemma extend_app (file : option (list fragment)) (a b : list fragment) :
  extend (extend file a) b = extend file (a ++ b).
Proof.
  destruct a as [|x a]; [done|].
  destruct b as [|y b]; simpl.
  - by rewrite app_nil_r.
  - by rewrite <- app_assoc.
Qed.

Lemma append_fragment_lookup (tmpFilePath : string) (data : fragment) w :
  disk (append_fragment tmpFilePath data w) !! tmpFilePath
  = extend (disk w !! tmpFilePath) [data].
Proof. unfold append_fragment. simpl. by rewrite lookup_insert_eq. Qed.

(** What one turn does to the scratch file, whatever its outcome. *)
Lemma embedChunk_spec this (tmpFilePath : string) (chunkLen idx : Z)
    (chunk : list string) w :
  let opening := if idx =? 0 then [Open] else [] in
  let w0 := if idx =? 0 then append_fragment tmpFilePath Open w else w in
  (∃ p w1 w',
     embedderClient this w0 = (Ret p, w1) ∧
     embedChunk this tmpFilePath chunkLen idx chunk w = (Ret (), w') ∧
     modelDownloaded w' = modelDownloaded w1 ∧
     disk w' !! tmpFilePath
     = extend (disk w !! tmpFilePath)
         (opening ++ batch_fragments chunkLen idx (p chunk))) ∨
  (∃ e w1,
     embedderClient this w0 = (Throw e, w1) ∧
     embedChunk this tmpFilePath chunkLen idx chunk w = (Throw e, w1) ∧
     disk w1 !! tmpFilePath = extend (disk w !! tmpFilePath) opening).
Proof.
  intros opening w0.
  assert (disk w0 !! tmpFilePath = extend (disk w !! tmpFilePath) opening) as Hw0.
  { subst opening w0. destruct (idx =? 0); [|done].
    apply append_fragment_lookup. }
  rewrite embedChunk_run. fold w0.
  pose proof (embedderClient_disk this w0) as Hk.
  destruct (embedderClient this w0) as [[p|e] w1] eqn:E; simpl in Hk.
  - left. eexists p, w1, _. split; [done|]. split; [done|].
    rewrite <- extend_app, <- Hw0, <- Hk. unfold batch_fragments.
    destruct (length_is_zero (p chunk)); [done|].
    split; [done|].
    rewrite append_fragment_lookup. unfold print. cbn [disk].
    rewrite append_fragment_lookup. rewrite extend_app. done.
  - right. exists e, w1. by rewrite Hk.
Qed.

Lemma embedLoop_app this (tmpFilePath : string) (chunkLen : Z)
    (pre rest : list (list string)) :
  ∀ idx w,
    embedLoop this tmpFilePath chunkLen idx (pre ++ rest) w =
      match embedLoop this tmpFilePath chunkLen idx pre w with
      | (Ret _, w1) =>
          embedLoop this tmpFilePath chunkLen
            (idx + Z.of_nat (length pre)) rest w1
      | (Throw e, w1) => (Throw e, w1)
      end.
Proof.
  induction pre as [|chunk pre IH]; intros idx w; simpl.
  - unfold ret. by rewrite Z.add_0_r.
  - unfold bind.
    destruct (embedChunk this tmpFilePath chunkLen idx chunk w) as [[[]|e] w1];
      [|done].
    rewrite IH. replace (idx + 1 + Z.of_nat (length pre))
      with (idx + Z.pos (Pos.of_succ_nat (length pre))) by lia.
    done.
Qed.

(** Once the first turn is over the file exists, and later turns only
    append to it. *)
Lemma embedLoop_file this (tmpFilePath : string) (chunkLen : Z)
    (chunks : list (list string)) :
  ∀ idx w,
    is_Some (disk w !! tmpFilePath) →
    is_Some (disk (embedLoop this tmpFilePath chunkLen idx chunks w).2
               !! tmpFilePath).
Proof.
  assert (∀ (file : option (list fragment)) data,
            is_Some file → is_Some (extend file data)) as Hext.
  { intros file [|x data] Hf; [done|]. simpl. eauto. }
  induction chunks as [|chunk rest IH]; intros idx w Hw; simpl.
  - done.
  - unfold bind.
    destruct (embedChunk_spec this tmpFilePath chunkLen idx chunk w)
      as [(p & w1 & w2 & _ & -> & _ & Hk) | (e1 & w1 & E & -> & Hk)].
    + apply IH. rewrite Hk. by apply Hext.
    + simpl. rewrite Hk. by apply Hext.
Qed.

(** ** Reading the scratch file back *)

Lemma length_eqb_0 {A} (l : list A) :
  (Z.of_nat (length l) =? 0) = match l with [] => true | _ => false end.
Proof. by destruct l. Qed.

(** The test passes only on an output without rows, and only when the
    object has a length. *)
Lemma length_is_zero_true (output : tensor float) :
  length_is_zero output = true → Tensor_has_length = true ∧ output = [].
Proof.
  unfold length_is_zero, Tensor_length.
  destruct Tensor_has_length; [|done].
  rewrite length_eqb_0. by destruct output.
Qed.

Lemma length_is_zero_rows (output : tensor float) :
  output ≠ [] → length_is_zero output = false.
Proof.
  intros Hne. destruct (length_is_zero output) eqn:E; [|done].
  by apply length_is_zero_true in E as [_ ->].
Qed.


Lemma loop_fragments_head (chunkLen : Z) (outputs : list (tensor float)) :
  ∀ idx,
    loop_fragments chunkLen idx outputs = [] ∨
    ∃ b rest, loop_fragments chunkLen idx outputs = Batch b :: rest.
Proof.
  induction outputs as [|output outputs IH]; intros idx; simpl; [by left|].
  unfold batch_fragments.
  destruct (length_is_zero output); simpl; [apply IH|]. right. eauto.
Qed.

Lemma parse_open (chunkLen idx : Z) (outputs : list (tensor float)) :
  parse (Open :: loop_fragments chunkLen idx outputs)
  = parse_elements (loop_fragments chunkLen idx outputs).
Proof.
  destruct (loop_fragments_head chunkLen outputs idx) as [-> | (b & rest & ->)];
    done.
Qed.

(** The fragments of a whole run spell a JSON array exactly when the
    last batch wrote its closing bracket, and then the array holds the
    outputs that were written, in order: all the vectors of all the
    outputs. *)
Lemma parse_loop_fragments (chunkLen : Z) (outputs : list (tensor float)) :
  ∀ idx,
    outputs ≠ [] →
    idx + Z.of_nat (length outputs) = chunkLen →
    (∀ output, last outputs = Some output → length_is_zero output = false →
       ∃ parsed,
         parse_elements (loop_fragments chunkLen idx outputs) = Some parsed ∧
         parsed ≠ [] ∧
         concat parsed = concat outputs) ∧
    (∀ output, last outputs = Some output → length_is_zero output = true →
       parse_elements (loop_fragments chunkLen idx outputs) = None).
Proof.
  induction outputs as [|output outputs IH]; intros idx Hne Hlen; [done|].
  simpl. unfold batch_fragments.
  destruct outputs as [|output' outputs].
  - (* the last batch *)
    simpl in *. assert ((chunkLen - 1 =? idx) = true) as -> by lia.
    split.
    + intros ? [= <-] ->. eexists. split; [done|]. split; [done|].
      simpl. by rewrite app_nil_r.
    + intros ? [= <-] ->. done.
  - (* a batch before the last *)
    assert ((chunkLen - 1 =? idx) = false) as ->.
    { simpl length in Hlen. lia. }
    destruct (IH (idx + 1)) as [IHok IHbad]; [done|simpl length in *; lia|].
    change (last (output :: output' :: outputs))
      with (last (output' :: outputs)).
    destruct (length_is_zero output) eqn:Hzero.
    + apply length_is_zero_true in Hzero as [_ ->]. simpl app. split; [|done].
      intros last_output Hlast Hwritten.
      destruct (IHok last_output Hlast Hwritten) as (parsed & ? & ? & ?).
      exists parsed. done.
    + split.
      * intros last_output Hlast Hwritten.
        destruct (IHok last_output Hlast Hwritten) as (parsed & Hp & ? & Hc).
        exists (output :: parsed).
        cbn [app parse_elements]. rewrite Hp. split; [done|]. split; [done|].
        simpl. by rewrite Hc.
      * intros last_output Hlast Hskipped. cbn [app parse_elements].
        by rewrite (IHbad last_output Hlast Hskipped).
Qed.

(** ** Runs in which every acquisition succeeds *)

Lemma embedLoop_total this (tmpFilePath : string) (chunkLen : Z) :
  (∀ w0, ∃ p w1, embedderClient this w0 = (Ret p, w1)) →
  ∀ (chunks : list (list string)) idx w,
    ∃ w', embedLoop this tmpFilePath chunkLen idx chunks w = (Ret (), w').
Proof.
  intros Hacq. induction chunks as [|chunk rest IH]; intros idx w.
  - exists w. done.
  - simpl. unfold bind.
    destruct (embedChunk_spec this tmpFilePath chunkLen idx chunk w)
      as [(p & w1 & w2 & _ & -> & _) | (e1 & w1 & E & _)].
    + apply IH.
    + destruct (Hacq (if idx =? 0 then append_fragment tmpFilePath Open w else w))
        as (p & w2 & Ep).
      congruence.
Qed.

(** ** Runs in which the loop completes *)

(** What a completed loop has appended, after the first turn. *)
Lemma embedLoop_returns this (tmpFilePath : string) (chunkLen : Z)
    (chunks : list (list string)) :
  ∀ idx w w',
    0 < idx →
    embedLoop this tmpFilePath chunkLen idx chunks w = (Ret (), w') →
    ∃ outputs,
      Forall2 produced chunks outputs ∧
      disk w' !! tmpFilePath
      = extend (disk w !! tmpFilePath) (loop_fragments chunkLen idx outputs).
Proof.
  induction chunks as [|chunk rest IH]; intros idx w w' Hidx.
  - intros [= <-]. exists []. done.
  - simpl. unfold bind.
    destruct (embedChunk_spec this tmpFilePath chunkLen idx chunk w)
      as [(p & w1 & w2 & Ep & -> & _ & Hk) | (e1 & w1 & _ & -> & _)]; [|done].
    intros Hrest.
    destruct (IH (idx + 1) w2 w') as (outputs & Hall & Hk'); [lia|done|].
    exists (p chunk :: outputs). split.
    + constructor; [|done].
      destruct (embedderClient_produces _ _ _ _ Ep) as (n & r & Hp).
      by exists n, r, p.
    + rewrite Hk', Hk. assert ((idx =? 0) = false) as -> by lia.
      simpl app. by rewrite extend_app.
Qed.

(** What a completed loop has appended, from the start. *)
Lemma embedLoop_returns_from_start this (tmpFilePath : string) (chunkLen : Z)
    (chunks : list (list string)) w w' :
  chunks ≠ [] →
  embedLoop this tmpFilePath chunkLen 0 chunks w = (Ret (), w') →
  ∃ outputs,
    Forall2 produced chunks outputs ∧
    disk w' !! tmpFilePath
    = Some (default [] (disk w !! tmpFilePath)
              ++ Open :: loop_fragments chunkLen 0 outputs).
Proof.
  destruct chunks as [|chunk rest]; [done|]. intros _.
  simpl. unfold bind.
  destruct (embedChunk_spec this tmpFilePath chunkLen 0 chunk w)
    as [(p & w1 & w2 & Ep & -> & _ & Hk) | (e1 & w1 & _ & -> & _)]; [|done].
  intros Hrest.
  destruct (embedLoop_returns this tmpFilePath chunkLen rest (0 + 1) w2 w')
    as (outputs & Hall & Hk'); [lia|done|].
  exists (p chunk :: outputs). split.
  - constructor; [|done].
    destruct (embedderClient_produces _ _ _ _ Ep) as (n & r & Hp).
    by exists n, r, p.
  - rewrite Hk', Hk, extend_app. done.
Qed.

Lemma embedLoop_completes_from_start this (tmpFilePath : string) (chunkLen : Z) :
  (∀ w0, ∃ p w1, embedderClient this w0 = (Ret p, w1)) →
  ∀ (chunks : list (list string)) w,
    chunks ≠ [] →
    ∃ outputs w',
      embedLoop this tmpFilePath chunkLen 0 chunks w = (Ret (), w') ∧
      Forall2 produced chunks outputs ∧
      disk w' !! tmpFilePath
      = Some (default [] (disk w !! tmpFilePath)
                ++ Open :: loop_fragments chunkLen 0 outputs).
Proof.
  intros Hacq chunks w Hne.
  destruct (embedLoop_total this tmpFilePath chunkLen Hacq chunks 0 w) as [w' E].
  destruct (embedLoop_returns_from_start this tmpFilePath chunkLen chunks w w'
              Hne E) as (outputs & Hall & Hk).
  by exists outputs, w'.
Qed.

(** ** embedChunks *)


Lemma embedChunks_completes this (textChunks : list string) w :
  (∀ w0, ∃ p w1, embedderClient this w0 = (Ret p, w1)) →
  disk w !! scratchPath w = None →
  toChunks textChunks (maxConcurrentChunks this) ≠ [] →
  ∃ outputs,
    Forall2 produced (toChunks textChunks (maxConcurrentChunks this)) outputs ∧
    (∀ output, last outputs = Some output → length_is_zero output = false →
       ∃ w', embedChunks this textChunks w = (Ret (Some (concat outputs)), w') ∧
             disk w' !! scratchPath w = None) ∧
    (∀ output, last outputs = Some output → length_is_zero output = true →
       ∃ w' text, embedChunks this textChunks w = (Throw SyntaxError, w') ∧
                  disk w' !! scratchPath w = Some text).
Proof.
  intros Hacq Hfresh Hchunks.
  rewrite embedChunks_run. cbv zeta.
  set (chunks := toChunks textChunks (maxConcurrentChunks this)) in *.
  destruct (embedLoop_completes_from_start this (scratchPath w)
              (Z.of_nat (length chunks)) Hacq chunks (next_uuid w) Hchunks)
    as (outputs & w1 & -> & Hall & Hk).
  simpl in Hk. rewrite Hfresh in Hk. simpl in Hk. rewrite Hk.
  rewrite parse_open.
  exists outputs. split; [done|].
  assert (outputs ≠ []) as Hne.
  { intros ->. apply Forall2_nil_inv_r in Hall. done. }
  destruct (parse_loop_fragments (Z.of_nat (length chunks)) outputs 0 Hne)
    as [Hok Hbad].
  { by rewrite (Forall2_length _ _ _ Hall). }
  split.
  - intros output Hlast Hwritten.
    destruct (Hok output Hlast Hwritten) as (parsed & -> & Hp & <-).
    eexists. split.
    + destruct parsed; [done|]. reflexivity.
    + simpl. apply lookup_delete_eq.
  - intros output Hlast Hskipped. rewrite (Hbad output Hlast Hskipped). eauto.
Qed.

(** *** The outputs of the run itself *)





Lemma parse_elements_nonempty (text : list fragment) :
  ∀ parsed, parse_elements text = Some parsed → parsed ≠ [].
Proof.
  destruct text as [|[| | |b] [|[| | |] rest]]; intros parsed; simpl; try done.
  - destruct rest; [|done]. by intros [= <-].
  - destruct (parse_elements rest); simpl; [|done]. by intros [= <-].
Qed.

(** With a new scratch name, the null result is out of reach: whatever
    parses holds at least one batch. *)
Lemma embedChunks_never_null this (textChunks : list string) w w' :
  disk w !! scratchPath w = None →
  embedChunks this textChunks w ≠ (Ret None, w').
Proof.
  intros Hfresh. rewrite embedChunks_run. cbv zeta.
  set (chunks := toChunks textChunks (maxConcurrentChunks this)).
  destruct (embedLoop this (scratchPath w) (Z.of_nat (length chunks)) 0 chunks
              (next_uuid w)) as [[[]|e] w1] eqn:Hloop; [|done].
  destruct (decide (chunks = [])) as [Hnil|Hne].
  - rewrite Hnil in Hloop. simpl in Hloop. injection Hloop as <-.
    simpl. by rewrite Hfresh.
  - destruct (embedLoop_returns_from_start this _ _ chunks _ _ Hne Hloop)
      as (outputs & _ & Hk).
    simpl in Hk. rewrite Hfresh in Hk. simpl in Hk. rewrite Hk, parse_open.
    destruct (parse_elements _) as [parsed|] eqn:Hparse; [|done].
    apply parse_elements_nonempty in Hparse.
    destruct parsed; [done|]. done.
Qed.


(** When no output is skipped, the fragments of a whole run spell the
    array of the outputs. *)
Lemma parse_loop_fragments_exact (chunkLen : Z) (outputs : list (tensor float)) :
  ∀ idx,
    outputs ≠ [] →
    idx + Z.of_nat (length outputs) = chunkLen →
    Forall (λ output, length_is_zero output = false) outputs →
    parse_elements (loop_fragments chunkLen idx outputs) = Some outputs.
Proof.
  induction outputs as [|output outputs IH]; intros idx Hne Hlen Hall; [done|].
  apply Forall_cons in Hall as [Hout Hall].
  simpl. unfold batch_fragments. rewrite Hout.
  destruct outputs as [|output' outputs].
  - simpl in *. assert ((chunkLen - 1 =? idx) = true) as -> by lia. done.
  - assert ((chunkLen - 1 =? idx) = false) as ->.
    { simpl length in Hlen. lia. }
    cbn [app parse_elements].
    rewrite (IH (idx + 1)); [done|done| |done].
    simpl length in *. lia.
Qed.


(** C2.  The code on the empty input: no batch, so nothing is ever
    written to the scratch file, and reading it back fails.  The call
    throws; it does not return null. *)
Theorem embedChunks_empty_input this w :
  toChunks [] (maxConcurrentChunks this) = [] →
  disk w !! scratchPath w = None →
  embedChunks this [] w = (Throw (ENOENT (scratchPath w)), next_uuid w).
Proof.
  intros Hchunks Hfresh. rewrite embedChunks_run. cbv zeta.
  rewrite Hchunks. simpl. unfold ret. simpl. by rewrite Hfresh.
Qed.


(** C9.  Let the turns for the batches before [chunk] complete and the
    acquisition for [chunk] throw.  Then embedChunks throws that error
    with the world exactly as the failed acquisition left it: no later
    batch is tried, nothing is read back, and the scratch file, holding
    what was written up to then, is on disk. *)
Theorem embedChunks_acquisition_failure this (textChunks : list string)
    w (before : list (list string)) (chunk : list string)
    (after : list (list string)) w1 (e : exn) w2 :
  let tmpFilePath := scratchPath w in
  let chunks := toChunks textChunks (maxConcurrentChunks this) in
  let w0 := if Z.of_nat (length before) =? 0
            then append_fragment tmpFilePath Open w1 else w1 in
  chunks = before ++ chunk :: after →
  embedLoop this tmpFilePath (Z.of_nat (length chunks)) 0 before (next_uuid w)
    = (Ret (), w1) →
  embedderClient this w0 = (Throw e, w2) →
  embedChunks this textChunks w = (Throw e, w2) ∧
  disk w2 = disk w0 ∧
  is_Some (disk w2 !! tmpFilePath).
Proof.
  intros tmpFilePath chunks w0 Hchunks Hbefore Hfail.
  assert (disk w2 = disk w0) as Hk.
  { pose proof (embedderClient_disk this w0) as H. by rewrite Hfail in H. }
  split; [|split; [done|]].
  - rewrite embedChunks_run. cbv zeta. fold tmpFilePath chunks.
    rewrite Hchunks at 2. rewrite embedLoop_app, Hbefore. simpl.
    unfold bind. rewrite embedChunk_run. fold tmpFilePath.
    change (0 + Z.of_nat (length before)) with (Z.of_nat (length before)).
    fold w0. by rewrite Hfail.
  - rewrite Hk. subst w0. destruct before as [|first before].
    + change (Z.of_nat (length (@nil (list string))) =? 0) with true.
      cbv iota. rewrite append_fragment_lookup.
      by destruct (disk w1 !! tmpFilePath).
    + simpl length.
      assert ((Z.of_nat (S (length before)) =? 0) = false) as ->
        by (apply Z.eqb_neq; lia).
      simpl in Hbefore. unfold bind in Hbefore.
      destruct (embedChunk_spec this tmpFilePath (Z.of_nat (length chunks)) 0
                  first (next_uuid w))
        as [(p & wa & wb & _ & E & _ & Hd) | (e1 & wa & _ & E & _)];
        rewrite E in Hbefore; [|done].
      pose proof (embedLoop_file this tmpFilePath (Z.of_nat (length chunks))
                    before (0 + 1) wb) as Hfile.
      rewrite Hbefore in Hfile. apply Hfile. rewrite Hd. simpl. eauto.
Qed.

(** ** The downloaded flag *)

Lemma embedLoop_downloaded this (tmpFilePath : string) (chunkLen : Z)
    (chunks : list (list string)) :
  ∀ idx w,
    modelDownloaded w = true →
    modelDownloaded (embedLoop this tmpFilePath chunkLen idx chunks w).2 = true.
Proof.
  induction chunks as [|chunk rest IH]; intros idx w Hd; simpl; [done|].
  unfold bind.
  set (w0 := if idx =? 0 then append_fragment tmpFilePath Open w else w).
  assert (modelDownloaded w0 = true) as Hd0.
  { subst w0. by destruct (idx =? 0). }
  pose proof (embedderClient_downloaded this w0 Hd0) as Hd1.
  destruct (embedChunk_spec this tmpFilePath chunkLen idx chunk w)
    as [(p & w1 & w2 & E & -> & Hd2 & _) | (e1 & w1 & E & -> & _)];
    fold w0 in E; rewrite E in Hd1; simpl in Hd1.
  - apply IH. congruence.
  - done.
Qed.

Lemma embedChunks_downloaded this (textChunks : list string) w :
  modelDownloaded w = true →
  modelDownloaded (embedChunks this textChunks w).2 = true.
Proof.
  intros Hd. rewrite embedChunks_run. cbv zeta.
  pose proof (embedLoop_downloaded this (scratchPath w)
    (Z.of_nat (length (toChunks textChunks (maxConcurrentChunks this)))) 
    (toChunks textChunks (maxConcurrentChunks this)) 0 (next_uuid w) Hd) as H.
  destruct (embedLoop this _ _ 0 _ (next_uuid w)) as [[[]|e] w1]; [|done].
  simpl in H.
  destruct (disk w1 !! scratchPath w) as [text|]; [|done].
  destruct (parse text); done.
Qed.

(** C8.  Every acquisition that returns a pipeline, from the first or
    from the second request, leaves the flag set.  Once the flag is set,
    each operation of the class leaves it set, whatever its outcome; and
    an acquisition then passes no progress callback with its requests,
    leaves the library's remote host alone, and prints nothing about a
    download (at most the notice that the first request failed). *)
Theorem modelDownloaded_monotonic this w :
  (∀ p w', embedderClient this w = (Ret p, w') → modelDownloaded w' = true) ∧
  (modelDownloaded w = true →
     (∀ hostOverride,
        modelDownloaded (fetchWithHost this hostOverride w).2 = true) ∧
     modelDownloaded (embedderClient this w).2 = true ∧
     (∀ textChunks, modelDownloaded (embedChunks this textChunks w).2 = true) ∧
     (∀ textInput, modelDownloaded (embedTextInput this textInput w).2 = true) ∧
     ∃ new,
       requests (embedderClient this w).2 = requests w ++ new ∧
       Forall (λ r, req_progress r = false ∧ req_remoteHost r = remoteHost w) new ∧
       (console (embedderClient this w).2 = console w ∨
        console (embedderClient this w).2 = console w ++ [fallback_notice])).
Proof.
  split.
  - intros p w' E.
    destruct (embedderClient_spec this w)
      as (r1 & res & w1 & E1 & _ & _ & _ & _ & _ & H).
    rewrite E in E1. injection E1 as <- <-.
    destruct (transformers (length (requests w)) r1); [|by destruct H as (_ & _ & ? & _)].
    destruct H as (r2 & _ & _ & _ & _ & _ & H).
    destruct (transformers (S (length (requests w))) r2); by destruct H.
  - intros Hd. split; [|split; [|split; [|split]]].
    + intros hostOverride.
      destruct (fetchWithHost_spec this hostOverride w)
        as (r & resp & w' & -> & _ & _ & _ & _ & _ & Hd' & _).
      simpl. congruence.
    + by apply embedderClient_downloaded.
    + intros textChunks. by apply embedChunks_downloaded.
    + intros textInput. unfold embedTextInput, bind, ret.
      pose proof (embedChunks_downloaded this
        (match applyQueryPrefix this textInput with
         | Arr texts => texts
         | Str text => [text]
         end) w Hd) as H.
      destruct (embedChunks this _ w) as [[result|e] w']; done.
    + destruct (embedderClient_spec this w)
        as (r1 & res & w1 & -> & _ & _ & _ & Hp1 & Hh1 & H).
      simpl. rewrite Hd in Hp1. simpl in Hp1.
      destruct (transformers (length (requests w)) r1).
      * destruct H as (r2 & Hq & _ & Hp2 & Hh2 & Hc & _).
        rewrite Hd in Hp2, Hh2. simpl in Hp2.
        exists [r1; r2]. split; [done|]. split; [|right; auto].
        repeat constructor; done.
      * destruct H as (_ & Hq & _ & Hc).
        exists [r1]. split; [done|]. split; [|left; auto].
        repeat constructor; done.
Qed.

(** ** Single-text embedding *)

(** C10.  On a list, embedTextInput runs embedChunks on the whole list,
    each text with the query prefix in front, and returns the first
    vector of the result only; a null result, or one without a first
    vector, gives the empty vector; an error of embedChunks is passed
    on. *)
Theorem embedTextInput_list this (texts : list string) w :
  ∃ prefixed,
    length prefixed = length texts ∧
    (∀ i text, texts !! i = Some text →
               prefixed !! i = Some (queryPrefix this +:+ text)) ∧
    embedTextInput this (Arr texts) w =
      match embedChunks this prefixed w with
      | (Ret (Some (first :: _)), w') => (Ret first, w')
      | (Ret _, w') => (Ret [], w')
      | (Throw e, w') => (Throw e, w')
      end.
Proof.
  exists (match applyQueryPrefix this (Arr texts) with
          | Arr out => out
          | Str text => [text]
          end).
  assert (∃ out, applyQueryPrefix this (Arr texts) = Arr out ∧
                 length out = length texts ∧
                 ∀ i text, texts !! i = Some text →
                           out !! i = Some (queryPrefix this +:+ text))
    as (out & Hout & Hlen & Hnth).
  { unfold applyQueryPrefix.
    destruct (truthy (queryPrefix this)) eqn:Hq; simpl.
    - eexists. split; [done|]. split; [by rewrite length_map|].
      intros i text Hi. change map with (@fmap list _) at 1.
      by rewrite list_lookup_fmap, Hi.
    - apply truthy_false in Hq. rewrite Hq. eauto. }
  rewrite Hout. split; [done|]. split; [done|].
  unfold embedTextInput, bind, ret. rewrite Hout.
  destruct (embedChunks this out w) as [[[[|first rest]|]|e] w']; done.
Qed.

(** A library that always answers makes every acquisition succeed. *)
Lemma answering_library_acquires this :
  (∀ n r, ∃ p, transformers n r = inr p) →
  ∀ w0, ∃ p w1, embedderClient this w0 = (Ret p, w1).
Proof.
  intros Hanswers w0.
  destruct (embedderClient_spec this w0)
    as (r1 & res & w1 & E & _ & _ & _ & _ & _ & H).
  destruct (Hanswers (length (requests w0)) r1) as [p Hp].
  rewrite Hp in H. destruct H as (-> & _). eauto.
Qed.

End Properties.

(** * The properties on the sample platform *)




(** On the empty input the call throws. *)
Lemma embedChunks_empty_input_witness :
  @embedChunks Z online reliable default_embedder [] boot
  = (Throw (ENOENT "/storage/tmp/uuid-0.tmp"), next_uuid boot).
Proof.
  apply (@embedChunks_empty_input Z online default_embedder boot);
    reflexivity.
Defined.

(** The claim of C3 on a disk that takes the opening bracket and the
    first batch and no more: every later append fails and is swallowed, all
    three batches complete, the text read back is cut short, parsing it
    fails, the error reaches the caller, and the file has not been
    removed. *)
Lemma scratch_file_left_on_parse_failure :
  let loop := @embedLoop Z online (fills_after 2) small_batches scratch0 3 0
                (@toChunks Z online five_texts 2) (next_uuid boot) in
  let run := @embedChunks Z online (fills_after 2) small_batches five_texts boot in
  loop.1 = Ret () ∧
  disk loop.2 !! scratch0 = Some [Open; Batch [[1]; [2]]] ∧
  last (console loop.2)
  = Some (Err "Error writing to tempfile: Error: ENOSPC: no space left on device, write") ∧
  run.1 = Throw SyntaxError ∧
  disk run.2 !! scratch0 = Some [Open; Batch [[1]; [2]]].
Proof. cbv zeta. repeat split; vm_compute; reflexivity. Qed.

(** A run that parses: the file is gone when the call returns. *)
Lemma scratch_file_deleted_after_parse_witness :
  ∃ result w',
    @embedChunks Z online reliable small_batches five_texts boot = (Ret result, w') ∧
    disk w' !! scratch0 = None.
Proof.
  refine (@scratch_file_deleted_after_parse Z online reliable small_batches
           five_texts boot
           (@embedLoop Z online reliable small_batches scratch0 3 0
              [["a"; "bb"]; ["ccc"; "dddd"]; ["eeeee"]] (next_uuid boot)).2
           [Open; Batch [[1]; [2]]; Comma; Batch [[3]; [4]]; Comma;
            Batch [[5]]; Close] _ _ _); vm_compute; reflexivity.
Defined.




(** A name every object inherits, as the configured model. *)
Lemma getEmbeddingModel_inherited_name_witness :
  @getEmbeddingModel Z online (Some "toString") = "toString" ∧
  @getEmbedderInfo Z online (Some "toString") = Some (Inherited "toString") ∧
  ∀ d, @getEmbedderInfo Z online (Some "toString") ≠ Some (Own d).
Proof.
  apply (@getEmbeddingModel_inherited_name Z online "toString").
  - apply (bool_decide_unpack _). vm_compute. exact I.
  - reflexivity.
Defined.

(** A model with a query prefix, and the default model without one. *)
Lemma applyQueryPrefix_prepends_witness :
  @applyQueryPrefix Z online small_batches (Str "hello") = Str "search_query: hello" ∧
  @applyQueryPrefix Z online default_embedder (Arr ["hello"; "world"])
  = Arr ["hello"; "world"].
Proof.
  split.
  - apply (proj2 (@applyQueryPrefix_prepends Z online small_batches)).
    discriminate.
  - apply (proj1 (@applyQueryPrefix_prepends Z online default_embedder)).
    reflexivity.
Defined.

(** The flag after an acquisition served by the fallback host, and after a
    later call on a session whose flag is set. *)
Lemma modelDownloaded_monotonic_witness :
  modelDownloaded (@embedderClient Z primary_down default_embedder boot).2 = true ∧
  modelDownloaded
    (@embedChunks Z offline reliable default_embedder ["hello"]
       (set_modelDownloaded true boot)).2 = true.
Proof.
  split.
  - apply (proj1 (@modelDownloaded_monotonic Z primary_down default_embedder boot)
             infer_lengths).
    reflexivity.
  - apply (proj2 (@modelDownloaded_monotonic Z offline default_embedder
                    (set_modelDownloaded true boot))).
    reflexivity.
Defined.

(** The second batch cannot acquire a pipeline: the call throws the
    fallback's error and the file with the first batch is on disk. *)
Lemma embedChunks_acquisition_failure_witness :
  ∃ w2,
    @embedChunks Z (online_until 1) reliable small_batches ["a"; "bb"; "ccc"] boot
    = (Throw (Underlying "fallback unreachable"), w2) ∧
    is_Some (disk w2 !! scratch0).
Proof.
  eexists.
  refine (let H := @embedChunks_acquisition_failure Z (online_until 1)
    small_batches ["a"; "bb"; "ccc"] boot [["a"; "bb"]] ["ccc"] []
    (@embedLoop Z (online_until 1) reliable small_batches scratch0 2 0 [["a"; "bb"]]
       (next_uuid boot)).2
    (Underlying "fallback unreachable")
    (@embedderClient Z (online_until 1) small_batches
       (@embedLoop Z (online_until 1) reliable small_batches scratch0 2 0 [["a"; "bb"]]
          (next_uuid boot)).2).2
    _ _ _ in conj (proj1 H) (proj2 (proj2 H))); vm_compute; reflexivity.
Defined.

(** ** Runs of the scenarios *)

Example embedChunks_hello_world :
  (@embedChunks Z online reliable default_embedder ["hello"; "world"] boot).1
  = Ret (Some [[5]; [5]]).
Proof. reflexivity. Qed.

Example embedderClient_primary_down :
  let run := @embedderClient Z primary_down default_embedder boot in
  run.1 = Ret infer_lengths ∧
  req_hostOverride <$> requests run.2 = [None; Some fallbackHost] ∧
  remoteHost run.2 = fallbackHost.
Proof. repeat split. Qed.

Example embedderClient_offline :
  let run := @embedderClient Z offline default_embedder boot in
  run.1 = Throw (Underlying "fallback unreachable") ∧
  req_hostOverride <$> requests run.2 = [None; Some fallbackHost] ∧
  modelDownloaded run.2 = false.
Proof. repeat split. Qed.

Example embedChunks_blank_middle_batch :
  (@embedChunks Z online_nonblank reliable small_batches ["a"; "bb"; EmptyString; "dddd"; "eeeee"]
     boot).1
  = Ret (Some [[1]; [2]; [5]]).
Proof. reflexivity. Qed.

(** A batch of blank texts only: the empty list comes back, and
    embedTextInput falls back to the empty vector. *)
Example embedChunks_blank_only :
  (@embedChunks Z online_nonblank reliable default_embedder [EmptyString] boot).1
  = Ret (Some []) ∧
  (@embedTextInput Z online_nonblank reliable default_embedder (Str EmptyString)
     boot).1
  = Ret [].
Proof. split; vm_compute; reflexivity. Qed.

Example embedTextInput_first_only :
  (@embedTextInput Z online reliable small_batches (Arr ["a"; "bb"; "ccc"]) boot).1
  = Ret [15].
Proof. reflexivity. Qed.

(** Sixty texts by 25: batches of 25, 25 and 10, and sixty vectors. *)
Example embedChunks_sixty_texts :
  let texts := replicate 60 "text" in
  length <$> @toChunks Z online texts 25 = [25; 25; 10]%nat ∧
  (@embedChunks Z online reliable default_embedder texts boot).1
  = Ret (Some (replicate 60 [4])).
Proof. split; vm_compute; reflexivity. Qed.

(** * Further properties of the methods *)

Section Footprint.
Context {float : Type} `{!Platform float}.

Abbreviation World := (World float).
Abbreviation pipeline := (pipeline float).
Abbreviation fragment := (fragment float).

Implicit Types (this : NativeEmbedder) (w : World) (p : pipeline).

(** ** What a call touches *)

Lemma append_fragment_lookup_ne (tmpFilePath q : string) (data : fragment) w :
  q ≠ tmpFilePath →
  disk (append_fragment tmpFilePath data w) !! q = disk w !! q.
Proof. intros Hq. unfold append_fragment. simpl. by rewrite lookup_insert_ne. Qed.

Lemma embedderClient_uuids this w : uuids (embedderClient this w).2 = uuids w.
Proof.
  destruct (embedderClient_spec this w) as (r1 & res & w' & -> & _ & Hu & _).
  done.
Qed.

Lemma embedderClient_requests this w :
  ∃ new,
    requests (embedderClient this w).2 = requests w ++ new ∧
    (1 ≤ length new ≤ 2)%nat.
Proof.
  destruct (embedderClient_spec this w)
    as (r1 & res & w' & -> & _ & _ & _ & _ & _ & H).
  simpl. destruct (transformers (length (requests w)) r1).
  - destruct H as (r2 & -> & _). exists [r1; r2]. simpl. split; [done|lia].
  - destruct H as (_ & -> & _). exists [r1]. simpl. split; [done|lia].
Qed.

(** One turn: only the scratch file changes on disk, no uuid is drawn, and
    one or two requests go out. *)
Lemma embedChunk_footprint this (tmpFilePath : string) (chunkLen idx : Z)
    (chunk : list string) w :
  let w' := (embedChunk this tmpFilePath chunkLen idx chunk w).2 in
  (∀ q, q ≠ tmpFilePath → disk w' !! q = disk w !! q) ∧
  uuids w' = uuids w ∧
  ∃ new, requests w' = requests w ++ new ∧ (1 ≤ length new ≤ 2)%nat.
Proof.
  cbv zeta. rewrite embedChunk_run.
  set (w0 := if idx =? 0 then append_fragment tmpFilePath Open w else w).
  assert ((∀ q, q ≠ tmpFilePath → disk w0 !! q = disk w !! q) ∧
          uuids w0 = uuids w ∧ requests w0 = requests w) as (Hk0 & Hu0 & Hr0).
  { subst w0. destruct (idx =? 0); [|done].
    split; [|done]. intros q Hq. by apply append_fragment_lookup_ne. }
  pose proof (embedderClient_disk this w0) as Hk.
  pose proof (embedderClient_uuids this w0) as Hu.
  destruct (embedderClient_requests this w0) as (new & Hr & Hlen).
  rewrite Hr0 in Hr.
  destruct (embedderClient this w0) as [[p|e] w1]; simpl in Hk, Hu, Hr; simpl.
  - destruct (length_is_zero (p chunk)).
    + split; [|split; [congruence|by exists new]].
      intros q Hq. rewrite Hk. by apply Hk0.
    + split; [|split; [simpl; congruence|by exists new]].
      intros q Hq. rewrite append_fragment_lookup_ne by done.
      unfold print. cbn [disk].
      rewrite append_fragment_lookup_ne by done. rewrite Hk. by apply Hk0.
  - split; [|split; [congruence|by exists new]].
    intros q Hq. rewrite Hk. by apply Hk0.
Qed.

Lemma embedLoop_footprint this (tmpFilePath : string) (chunkLen : Z)
    (chunks : list (list string)) :
  ∀ idx w,
    let run := embedLoop this tmpFilePath chunkLen idx chunks w in
    (∀ q, q ≠ tmpFilePath → disk run.2 !! q = disk w !! q) ∧
    uuids run.2 = uuids w ∧
    ∃ new,
      requests run.2 = requests w ++ new ∧
      (length new ≤ 2 * length chunks)%nat ∧
      (run.1 = Ret () → (length chunks ≤ length new)%nat).
Proof.
  induction chunks as [|chunk rest IH]; intros idx w; cbv zeta.
  - simpl. split; [done|]. split; [done|]. exists []. rewrite app_nil_r.
    simpl. split; [done|]. split; lia.
  - simpl. unfold bind.
    destruct (embedChunk_footprint this tmpFilePath chunkLen idx chunk w)
      as (Hk1 & Hu1 & new1 & Hr1 & Hlen1).
    destruct (embedChunk this tmpFilePath chunkLen idx chunk w) as [[[]|e] w1];
      simpl in Hk1, Hu1, Hr1.
    + destruct (IH (idx + 1) w1) as (Hk2 & Hu2 & new2 & Hr2 & Hlen2 & Hret).
      split; [|split; [congruence|]].
      * intros q Hq. rewrite Hk2 by done. by apply Hk1.
      * exists (new1 ++ new2). rewrite Hr2, Hr1, <- app_assoc.
        split; [done|]. rewrite length_app. simpl length. split; [lia|].
        intros Hdone. specialize (Hret Hdone). lia.
    + simpl. split; [done|]. split; [done|]. exists new1.
      split; [done|]. simpl length. split; [lia|done].
Qed.

(** Whatever the outcome: one uuid, and no other file touched. *)
Lemma embedChunks_frame this (textChunks : list string) w :
  uuids (embedChunks this textChunks w).2 = S (uuids w) ∧
  ∀ q, q ≠ scratchPath w →
       disk (embedChunks this textChunks w).2 !! q = disk w !! q.
Proof.
  rewrite embedChunks_run. cbv zeta.
  set (chunks := toChunks textChunks (maxConcurrentChunks this)).
  destruct (embedLoop_footprint this (scratchPath w) (Z.of_nat (length chunks))
              chunks 0 (next_uuid w)) as (Hk & Hu & _).
  destruct (embedLoop this _ _ 0 chunks (next_uuid w)) as [[[]|e] w1];
    simpl in Hk, Hu; [|done].
  destruct (disk w1 !! scratchPath w) as [text|]; [|done].
  destruct (parse text) as [embeddingResults|]; simpl; [|done].
  split; [done|].
  intros q Hq. rewrite lookup_delete_ne by done. by apply Hk.
Qed.

(** A call that returns has removed its scratch file. *)
Lemma embedChunks_ret_scratch_gone this (textChunks : list string) w
    (result : option (list (vector float))) w' :
  embedChunks this textChunks w = (Ret result, w') →
  disk w' !! scratchPath w = None.
Proof.
  rewrite embedChunks_run. cbv zeta.
  destruct (embedLoop this _ _ 0 _ (next_uuid w)) as [[[]|e] w1]; [|done].
  destruct (disk w1 !! scratchPath w) as [text|]; [|done].
  destruct (parse text); [|done].
  intros [= _ <-]. simpl. apply lookup_delete_eq.
Qed.

(** X1.  Whatever its outcome, a call of embedChunks draws exactly one
    uuid and leaves every file of the tmp directory other than its own
    scratch file as it was; when it returns, its own scratch file is no
    longer there. *)
Theorem embedChunks_footprint this (textChunks : list string) w :
  let run := embedChunks this textChunks w in
  uuids run.2 = S (uuids w) ∧
  (∀ filename, tmpFile filename ≠ scratchPath w →
     disk run.2 !! tmpFile filename = disk w !! tmpFile filename) ∧
  (∀ result, run.1 = Ret result → disk run.2 !! scratchPath w = None).
Proof.
  cbv zeta.
  destruct (embedChunks_frame this textChunks w) as [Hu Hk].
  split; [done|]. split; [by intros filename; apply Hk|].
  intros result Hret.
  destruct (embedChunks this textChunks w) as [res w'] eqn:E.
  simpl in Hret. subst res. by eapply embedChunks_ret_scratch_gone.
Qed.

(** X2.  A call of embedChunks makes at most two requests to the library
    for each batch, and, when it returns, at least one for each batch.
    The requests made before the call stay on record in front of them. *)
Theorem embedChunks_request_bound this (textChunks : list string) w :
  let run := embedChunks this textChunks w in
  let chunks := toChunks textChunks (maxConcurrentChunks this) in
  ∃ new,
    requests run.2 = requests w ++ new ∧
    (length new ≤ 2 * length chunks)%nat ∧
    (∀ result, run.1 = Ret result → (length chunks ≤ length new)%nat).
Proof.
  cbv zeta. rewrite embedChunks_run. cbv zeta.
  set (chunks := toChunks textChunks (maxConcurrentChunks this)).
  destruct (embedLoop_footprint this (scratchPath w) (Z.of_nat (length chunks))
              chunks 0 (next_uuid w)) as (_ & _ & new & Hr & Hlen & Hret).
  exists new.
  destruct (embedLoop this _ _ 0 chunks (next_uuid w)) as [[[]|e] w1];
    simpl in Hr, Hret.
  - destruct (disk w1 !! scratchPath w) as [text|].
    + destruct (parse text); simpl; (split; [done|]); (split; [done|]); auto.
    + simpl. split; [done|]. split; [done|]. done.
  - simpl. split; [done|]. split; [done|]. done.
Qed.

(** ** The scratch file as a write-log *)

Lemma extend_Some (content data : list fragment) :
  extend (Some content) data = Some (content ++ data).
Proof. destruct data; simpl; [by rewrite app_nil_r|done]. Qed.

Lemma loop_fragments_unclosed (chunkLen : Z) (outputs : list (tensor float)) :
  ∀ idx,
    idx + Z.of_nat (length outputs) < chunkLen →
    parse_elements (loop_fragments chunkLen idx outputs) = None.
Proof.
  induction outputs as [|output outputs IH]; intros idx Hlen; [done|].
  simpl. unfold batch_fragments.
  assert (parse_elements (loop_fragments chunkLen (idx + 1) outputs) = None)
    as Hrest.
  { apply IH. simpl length in Hlen. lia. }
  destruct (length_is_zero output); [done|].
  assert ((chunkLen - 1 =? idx) = false) as ->.
  { simpl length in Hlen. lia. }
  cbn [app parse_elements]. by rewrite Hrest.
Qed.

(** What a loop that throws has appended, after the first turn: the
    fragments of the batches before the one that failed. *)
Lemma embedLoop_throws_content this (tmpFilePath : string) (chunkLen : Z)
    (chunks : list (list string)) :
  ∀ idx w (e : exn) w',
    0 < idx →
    embedLoop this tmpFilePath chunkLen idx chunks w = (Throw e, w') →
    ∃ outputs,
      (length outputs < length chunks)%nat ∧
      disk w' !! tmpFilePath
      = extend (disk w !! tmpFilePath) (loop_fragments chunkLen idx outputs).
Proof.
  induction chunks as [|chunk rest IH]; intros idx w e w' Hidx; [done|].
  simpl. unfold bind.
  destruct (embedChunk_spec this tmpFilePath chunkLen idx chunk w)
    as [(p & w1 & w2 & _ & -> & _ & Hk) | (e1 & w1 & _ & -> & Hk)].
  - intros Hrest.
    destruct (IH (idx + 1) w2 e w') as (outputs & Hlen & Hk'); [lia|done|].
    exists (p chunk :: outputs). split; [simpl; lia|].
    rewrite Hk', Hk. assert ((idx =? 0) = false) as -> by lia.
    simpl app. by rewrite extend_app.
  - intros [= <- <-]. exists []. split; [simpl; lia|].
    rewrite Hk. assert ((idx =? 0) = false) as -> by lia. done.
Qed.

(** X4.  The scratch file is a faithful write-log: when the loop has
    completed, for at least one batch, on a new file, the file exists, and
    if no batch had an empty output it reads back as exactly the list of
    the batch outputs, in batch order. *)
Theorem scratch_file_reads_back this (tmpFilePath : string)
    (chunks : list (list string)) w w' :
  chunks ≠ [] →
  disk w !! tmpFilePath = None →
  embedLoop this tmpFilePath (Z.of_nat (length chunks)) 0 chunks w
    = (Ret (), w') →
  ∃ outputs text,
    Forall2 produced chunks outputs ∧
    disk w' !! tmpFilePath = Some text ∧
    (Forall (λ output, output ≠ []) outputs → parse text = Some outputs).
Proof.
  intros Hne Hfresh Hloop.
  destruct (embedLoop_returns_from_start this _ _ chunks _ _ Hne Hloop)
    as (outputs & Hall & Hk).
  rewrite Hfresh in Hk. simpl in Hk.
  exists outputs, (Open :: loop_fragments (Z.of_nat (length chunks)) 0 outputs).
  split; [done|]. split; [done|].
  intros Hnonempty. rewrite parse_open.
  apply parse_loop_fragments_exact;
    [|by rewrite (Forall2_length _ _ _ Hall)|].
  - intros ->. apply Forall2_nil_inv_r in Hall. done.
  - eapply Forall_impl; [exact Hnonempty|]. apply length_is_zero_rows.
Qed.

(** X5.  When embedChunks, on a new scratch name, throws an error of the
    library (an acquisition failed), the scratch file it leaves behind
    holds an array that was never closed: reading it back as JSON
    fails. *)
Theorem scratch_file_left_unterminated this (textChunks : list string) w
    (s : string) w' :
  disk w !! scratchPath w = None →
  embedChunks this textChunks w = (Throw (Underlying s), w') →
  ∃ text, disk w' !! scratchPath w = Some text ∧ parse text = None.
Proof.
  intros Hfresh. rewrite embedChunks_run. cbv zeta.
  set (chunks := toChunks textChunks (maxConcurrentChunks this)).
  set (chunkLen := Z.of_nat (length chunks)).
  destruct (embedLoop this (scratchPath w) chunkLen 0 chunks (next_uuid w))
    as [[[]|e1] w1] eqn:Hloop.
  { destruct (disk w1 !! scratchPath w) as [text|]; [|done].
    destruct (parse text); done. }
  intros [= -> ->].
  destruct chunks as [|chunk rest] eqn:Hchunks; [done|].
  simpl in Hloop. unfold bind in Hloop.
  destruct (embedChunk_spec this (scratchPath w) chunkLen 0 chunk (next_uuid w))
    as [(p & wa & wb & _ & E & _ & Hk) | (e1 & wa & _ & E & Hk)];
    rewrite E in Hloop; simpl in Hk; rewrite Hfresh in Hk; simpl in Hk.
  - destruct (embedLoop_throws_content this (scratchPath w) chunkLen rest
                (0 + 1) wb _ _ ltac:(lia) Hloop) as (outputs & Hlen & Hk').
    rewrite Hk, extend_Some in Hk'.
    eexists. split; [exact Hk'|].
    change ((Open :: batch_fragments chunkLen 0 (p chunk))
              ++ loop_fragments chunkLen (0 + 1) outputs)
      with (Open :: loop_fragments chunkLen 0 (p chunk :: outputs)).
    rewrite parse_open. apply loop_fragments_unclosed.
    subst chunkLen. simpl length in *. lia.
  - injection Hloop as _ ->. eexists. split; [exact Hk|]. done.
Qed.

(** ** What comes back *)


(** ** A library that always resolves with the same pipeline *)

Lemma produced_fixed p (chunks : list (list string))
    (outputs : list (tensor float)) :
  (∀ n r, transformers n r = inr p) →
  Forall2 produced chunks outputs →
  outputs = p <$> chunks.
Proof.
  intros Hfixed. induction 1 as [|chunk output chunks outputs Hp _ IH]; [done|].
  destruct Hp as (n & r & p' & Hp' & ->).
  rewrite Hfixed in Hp'. injection Hp' as <-. simpl. by rewrite IH.
Qed.

(** A call under a library that always resolves with [p]: it returns
    when the output of [p] for the last batch goes through the write, and
    throws the parse error when that output is skipped. *)
Lemma embedChunks_fixed_run this p (textChunks : list string) w :
  let chunks := toChunks textChunks (maxConcurrentChunks this) in
  (∀ n r, transformers n r = inr p) →
  disk w !! scratchPath w = None →
  chunks ≠ [] →
  (∀ output, last (p <$> chunks) = Some output →
     length_is_zero output = false →
     ∃ w', embedChunks this textChunks w
           = (Ret (Some (concat (p <$> chunks))), w')) ∧
  (∀ output, last (p <$> chunks) = Some output →
     length_is_zero output = true →
     ∃ w', embedChunks this textChunks w = (Throw SyntaxError, w')).
Proof.
  intros chunks Hfixed Hfresh Hne.
  destruct (embedChunks_completes this textChunks w)
    as (outputs & Hall & Hok & Hbad); [|done|done|].
  { apply answering_library_acquires. intros n r. eauto. }
  apply (produced_fixed p _ _ Hfixed) in Hall. subst outputs. split.
  - intros output Hlast Hout.
    destruct (Hok output Hlast Hout) as (w' & E & _). by exists w'.
  - intros output Hlast Hout.
    destruct (Hbad output Hlast Hout) as (w' & text & E & _). by exists w'.
Qed.

(** X8.  When the library always resolves with the same pipeline, the
    scratch name is new and the pipeline has an output for the last batch,
    embedChunks returns the outputs of the pipeline on the batches of
    toChunks, joined in batch order; a batch with an empty output adds
    nothing.  The result does not depend on the state the call starts
    in. *)
Theorem embedChunks_fixed_pipeline this p (textChunks : list string) w
    (before : list (list string)) (last_chunk : list string) :
  (∀ n r, transformers n r = inr p) →
  toChunks textChunks (maxConcurrentChunks this) = before ++ [last_chunk] →
  p last_chunk ≠ [] →
  disk w !! scratchPath w = None →
  ∃ w',
    embedChunks this textChunks w
    = (Ret (Some (concat (p <$> before ++ [last_chunk]))), w').
Proof.
  intros Hfixed Hchunks Hlast Hfresh.
  destruct (embedChunks_fixed_run this p textChunks w Hfixed Hfresh)
    as [Hok _].
  { rewrite Hchunks. by destruct before. }
  rewrite Hchunks in Hok.
  apply (Hok (p last_chunk)); [|by apply length_is_zero_rows].
  rewrite fmap_app. change (p <$> [last_chunk]) with [p last_chunk].
  by rewrite last_snoc.
Qed.


(** X9.  When the library always resolves with the same pipeline, the
    scratch name is new and toChunks puts a single text in one batch,
    embedTextInput on a text returns the first vector the pipeline gives
    for the one-text batch holding the query prefix followed by the
    text. *)
Theorem embedTextInput_single_text this p (text : string) w
    (v : vector float) (rest : tensor float) :
  (∀ n r, transformers n r = inr p) →
  toChunks [queryPrefix this +:+ text] (maxConcurrentChunks this)
  = [[queryPrefix this +:+ text]] →
  p [queryPrefix this +:+ text] = v :: rest →
  disk w !! scratchPath w = None →
  ∃ w', embedTextInput this (Str text) w = (Ret v, w').
Proof.
  intros Hfixed Hchunks Hp Hfresh.
  assert (applyQueryPrefix this (Str text) = Str (queryPrefix this +:+ text))
    as Hprefixed.
  { unfold applyQueryPrefix.
    destruct (truthy (queryPrefix this)) eqn:Hq; simpl; [done|].
    apply truthy_false in Hq. by rewrite Hq. }
  unfold embedTextInput, bind, ret. rewrite Hprefixed.
  destruct (embedChunks_completes this [queryPrefix this +:+ text] w)
    as (outputs & Hall & Hok & _).
  - apply answering_library_acquires. intros n r. eauto.
  - done.
  - by rewrite Hchunks.
  - rewrite Hchunks in Hall.
    apply (produced_fixed p _ _ Hfixed) in Hall. subst outputs.
    destruct (Hok (p [queryPrefix this +:+ text])) as (w' & E & _); [done| |].
    { apply length_is_zero_rows. by rewrite Hp. }
    rewrite E. simpl. rewrite Hp. simpl. by exists w'.
Qed.

(** X10.  On the empty list embedTextInput does not return the empty
    vector: with no batch and a new scratch name, the missing scratch file
    makes it throw. *)
Theorem embedTextInput_empty_list this w :
  toChunks [] (maxConcurrentChunks this) = [] →
  disk w !! scratchPath w = None →
  embedTextInput this (Arr []) w
  = (Throw (ENOENT (scratchPath w)), next_uuid w).
Proof.
  intros Hchunks Hfresh.
  assert (applyQueryPrefix this (Arr []) = Arr []) as Hprefixed.
  { unfold applyQueryPrefix. by destruct (truthy (queryPrefix this)). }
  unfold embedTextInput, bind. rewrite Hprefixed, embedChunks_run. cbv zeta.
  rewrite Hchunks. simpl. unfold ret. simpl. by rewrite Hfresh.
Qed.

(** ** Acquisition and the library's env *)

(** X11.  An acquisition changes the library's env only when the model is
    not marked as downloaded and the first request fails: the remote host
    and the path template are then those of the fallback, and they stay so
    after the call, whether the fallback request succeeds or not. *)
Theorem embedderClient_env this w :
  let run := embedderClient this w in
  let r1 := mkRequest (model this) None (remoteHost w) (remotePathTemplate w)
              (negb (modelDownloaded w)) in
  if modelDownloaded w
  then remoteHost run.2 = remoteHost w ∧
       remotePathTemplate run.2 = remotePathTemplate w
  else
    match transformers (length (requests w)) r1 with
    | inr _ => remoteHost run.2 = remoteHost w ∧
               remotePathTemplate run.2 = remotePathTemplate w
    | inl _ => remoteHost run.2 = fallbackHost ∧
               remotePathTemplate run.2 = "{model}/"
    end.
Proof.
  cbv zeta.
  unfold embedderClient, fetchWithHost, import_and_call, library_pipeline,
    log, throw_value, when, try_catch, bind, ret, throw, gets, modify.
  destruct (modelDownloaded w) eqn:Hd; simpl; rewrite ?Hd; simpl.
  - destruct (transformers (length (requests w)) _) as [e1|p1];
      simpl; rewrite ?Hd; simpl; [|done].
    destruct (transformers _ _) as [e2|p2]; done.
  - destruct (transformers (length (requests w)) _) as [e1|p1];
      simpl; rewrite ?Hd; simpl; [|done].
    destruct (transformers _ _) as [e2|p2]; done.
Qed.

(** X12.  After an acquisition the model is marked as downloaded exactly
    when it was marked before or the acquisition returned a pipeline: a
    failed acquisition never sets the mark. *)
Theorem embedderClient_marks_on_success this w :
  let run := embedderClient this w in
  modelDownloaded run.2 = true ↔
  modelDownloaded w = true ∨ ∃ p, run.1 = Ret p.
Proof.
  cbv zeta.
  destruct (embedderClient_spec this w)
    as (r1 & res & w' & -> & _ & _ & _ & _ & _ & H).
  simpl. destruct (transformers (length (requests w)) r1).
  - destruct H as (r2 & _ & _ & _ & _ & _ & H).
    destruct (transformers (S (length (requests w))) r2);
      destruct H as [-> Hd].
    + rewrite Hd. split; [auto|]. intros [?|[p ?]]; done.
    + split; [eauto|done].
  - destruct H as (-> & _ & Hd & _). split; [eauto|done].
Qed.

(** ** The downloaded mark within a call *)

Lemma embedderClient_ret_downloaded this w p w' :
  embedderClient this w = (Ret p, w') → modelDownloaded w' = true.
Proof.
  intros E.
  destruct (embedderClient_spec this w)
    as (r1 & res & w1 & E1 & _ & _ & _ & _ & _ & H).
  rewrite E in E1. injection E1 as <- <-.
  destruct (transformers (length (requests w)) r1);
    [|by destruct H as (_ & _ & ? & _)].
  destruct H as (r2 & _ & _ & _ & _ & _ & H).
  destruct (transformers (S (length (requests w))) r2); by destruct H.
Qed.

(** With the mark set, an acquisition passes no progress callback. *)
Lemma embedderClient_quiet this w :
  modelDownloaded w = true →
  ∃ new,
    requests (embedderClient this w).2 = requests w ++ new ∧
    Forall (λ r, req_progress r = false) new.
Proof.
  intros Hd.
  destruct (embedderClient_spec this w)
    as (r1 & res & w' & -> & _ & _ & _ & Hp1 & _ & H).
  simpl. rewrite Hd in Hp1. simpl in Hp1.
  destruct (transformers (length (requests w)) r1).
  - destruct H as (r2 & -> & _ & Hp2 & _). rewrite Hd in Hp2. simpl in Hp2.
    exists [r1; r2]. split; [done|]. by repeat constructor.
  - destruct H as (_ & -> & _). exists [r1]. split; [done|].
    by repeat constructor.
Qed.

Lemma embedLoop_quiet this (tmpFilePath : string) (chunkLen : Z)
    (chunks : list (list string)) :
  ∀ idx w,
    modelDownloaded w = true →
    ∃ new,
      requests (embedLoop this tmpFilePath chunkLen idx chunks w).2
      = requests w ++ new ∧
      Forall (λ r, req_progress r = false) new.
Proof.
  induction chunks as [|chunk rest IH]; intros idx w Hd; simpl.
  - exists []. by rewrite app_nil_r.
  - unfold bind. rewrite embedChunk_run.
    set (w0 := if idx =? 0 then append_fragment tmpFilePath Open w else w).
    assert (modelDownloaded w0 = true ∧ requests w0 = requests w) as [Hd0 Hr0].
    { subst w0. by destruct (idx =? 0). }
    destruct (embedderClient_quiet this w0 Hd0) as (new1 & Hr1 & Hq1).
    pose proof (embedderClient_downloaded this w0 Hd0) as Hd1.
    rewrite Hr0 in Hr1.
    destruct (embedderClient this w0) as [[p|e] w1]; simpl in Hr1, Hd1;
      [|by exists new1].
    set (w2 := if length_is_zero (p chunk) then w1 else _).
    assert (modelDownloaded w2 = true ∧ requests w2 = requests w ++ new1)
      as [Hd2 Hr2].
    { subst w2. by destruct (length_is_zero (p chunk)). }
    destruct (IH (idx + 1) w2 Hd2) as (new2 & Hr & Hq2).
    exists (new1 ++ new2). rewrite Hr, Hr2, <- app_assoc. split; [done|].
    by apply Forall_app.
Qed.

(** X17.  A call of embedChunks that returns, on a new scratch name, has
    marked the model as downloaded. *)
Theorem embedChunks_marks_downloaded this (textChunks : list string) w
    (result : option (list (vector float))) w' :
  disk w !! scratchPath w = None →
  embedChunks this textChunks w = (Ret result, w') →
  modelDownloaded w' = true.
Proof.
  intros Hfresh. rewrite embedChunks_run. cbv zeta.
  set (chunks := toChunks textChunks (maxConcurrentChunks this)).
  set (chunkLen := Z.of_nat (length chunks)).
  destruct (embedLoop this (scratchPath w) chunkLen 0 chunks (next_uuid w))
    as [[[]|e] w1] eqn:Hloop; [|done].
  destruct chunks as [|chunk rest].
  { simpl in Hloop. injection Hloop as <-. simpl. by rewrite Hfresh. }
  assert (modelDownloaded w1 = true) as Hd.
  { simpl in Hloop. unfold bind in Hloop.
    destruct (embedChunk_spec this (scratchPath w) chunkLen 0 chunk
                (next_uuid w))
      as [(p & wa & wb & Ep & E & Hd & _) | (e1 & wa & _ & E & _)];
      rewrite E in Hloop; [|done].
    pose proof (embedLoop_downloaded this (scratchPath w) chunkLen rest
                  (0 + 1) wb) as Hrest.
    rewrite Hloop in Hrest. apply Hrest. rewrite Hd.
    by eapply embedderClient_ret_downloaded. }
  destruct (disk w1 !! scratchPath w) as [text|]; [|done].
  destruct (parse text); [|done]. by intros [= _ <-].
Qed.

(** X18.  Within one call of embedChunks only the requests made for the
    first batch, two at most, can carry a progress callback: the requests
    of the call are those of the turn of the first batch followed by those
    of the later batches, and none of the later ones carries a progress
    callback. *)
Theorem embedChunks_progress_first_batch_only this (textChunks : list string) w :
  let chunks := toChunks textChunks (maxConcurrentChunks this) in
  ∃ first later,
    requests (embedChunks this textChunks w).2 = requests w ++ first ++ later ∧
    match chunks with
    | [] => first = []
    | chunk :: _ =>
        requests (embedChunk this (scratchPath w) (Z.of_nat (length chunks)) 0
                    chunk (next_uuid w)).2 = requests w ++ first
    end ∧
    (length first ≤ 2)%nat ∧
    Forall (λ r, req_progress r = false) later.
Proof.
  cbv zeta. rewrite embedChunks_run. cbv zeta.
  set (chunks := toChunks textChunks (maxConcurrentChunks this)).
  set (chunkLen := Z.of_nat (length chunks)).
  assert (∃ first later,
            requests (embedLoop this (scratchPath w) chunkLen 0 chunks
                        (next_uuid w)).2 = requests w ++ first ++ later ∧
            match chunks with
            | [] => first = []
            | chunk :: _ =>
                requests (embedChunk this (scratchPath w) chunkLen 0 chunk
                            (next_uuid w)).2 = requests w ++ first
            end ∧
            (length first ≤ 2)%nat ∧
            Forall (λ r, req_progress r = false) later)
    as (first & later & Hr & Hfirst & Hlen & Hq).
  { destruct chunks as [|chunk rest]; simpl.
    - exists [], []. rewrite app_nil_r. repeat split; [simpl; lia|constructor].
    - unfold bind.
      destruct (embedChunk_footprint this (scratchPath w) chunkLen 0 chunk
                  (next_uuid w)) as (_ & _ & new1 & Hr1 & Hlen1).
      destruct (embedChunk_spec this (scratchPath w) chunkLen 0 chunk
                  (next_uuid w))
        as [(p & wa & wb & Ep & E & Hd & _) | (e1 & wa & _ & E & _)];
        rewrite E in Hr1 |- *; simpl in Hr1.
      + apply embedderClient_ret_downloaded in Ep.
        destruct (embedLoop_quiet this (scratchPath w) chunkLen rest (0 + 1) wb)
          as (new2 & Hr2 & Hq2); [congruence|].
        exists new1, new2. rewrite Hr2, Hr1, <- app_assoc.
        repeat split; [done|lia|done].
      + simpl. exists new1, []. rewrite app_nil_r.
        repeat split; [done|done|lia|constructor]. }
  exists first, later. split; [|done].
  destruct (embedLoop this _ _ 0 chunks (next_uuid w)) as [[[]|e] w1];
    simpl in Hr; [|done].
  destruct (disk w1 !! scratchPath w) as [text|]; [|done].
  destruct (parse text); done.
Qed.

(** ** Prefix application *)

Lemma append_inj_l (prefix a b : string) :
  prefix +:+ a = prefix +:+ b → a = b.
Proof.
  induction prefix as [|c prefix IH]; simpl; [done|].
  intros [= H]. by apply IH.
Qed.

(** X19.  Prefix application loses nothing: two inputs with the same
    prefixed form are the same input.  For a model that has no registry
    entry it is the identity. *)
Theorem applyQueryPrefix_injective this (a b : TextInput) :
  (applyQueryPrefix this a = applyQueryPrefix this b → a = b) ∧
  (SUPPORTED_NATIVE_EMBEDDING_MODELS !! model this = None →
   applyQueryPrefix this a = a).
Proof.
  unfold applyQueryPrefix. split.
  - destruct (truthy (queryPrefix this)); simpl; [|done].
    destruct a as [ta|la], b as [tb|lb]; try done.
    + intros [= H]. f_equal. by eapply append_inj_l.
    + intros [= H]. f_equal. revert lb H.
      induction la as [|x la IH]; intros [|y lb]; simpl; try done.
      intros [= Hx Hl]. f_equal; [by eapply append_inj_l|by apply IH].
  - intros Hnone. unfold queryPrefix. by rewrite Hnone.
Qed.

(** ** The registry *)

(** X14.  Resolving is idempotent: the model [getEmbeddingModel] returns
    resolves to itself.  What it returns is always a registered model, a
    name the registry object inherits, or the default model, and the static
    method returns the same. *)
Theorem getEmbeddingModel_idempotent (pref : option string) :
  getEmbeddingModel (Some (getEmbeddingModel pref)) = getEmbeddingModel pref ∧
  (is_Some (SUPPORTED_NATIVE_EMBEDDING_MODELS !! getEmbeddingModel pref) ∨
   getEmbeddingModel pref ∈ Object_prototype ∨
   getEmbeddingModel pref = defaultModel) ∧
  _getEmbeddingModel pref = getEmbeddingModel pref.
Proof.
  split; [|split; [|done]].
  - unfold getEmbeddingModel at 2 3. simpl.
    destruct (get_member (default defaultModel pref)) eqn:E.
    + unfold getEmbeddingModel. simpl. by rewrite E.
    + unfold getEmbeddingModel. simpl.
      by destruct (get_member defaultModel).
  - unfold getEmbeddingModel, get_member.
    destruct (SUPPORTED_NATIVE_EMBEDDING_MODELS !! default defaultModel pref)
      eqn:E; [left; eauto|].
    destruct (bool_decide (default defaultModel pref ∈ Object_prototype)) eqn:Ep;
      [|by right; right].
    right; left. by apply bool_decide_eq_true in Ep.
Qed.

(** X16.  availableModels lists one entry for each registered model, and
    an entry is in the list exactly when it is the apiInfo of a registered
    model. *)
Theorem availableModels_registered :
  length availableModels = size SUPPORTED_NATIVE_EMBEDDING_MODELS ∧
  ∀ info,
    info ∈ availableModels ↔
    ∃ id d, SUPPORTED_NATIVE_EMBEDDING_MODELS !! id = Some d ∧
            ModelDescriptor.apiInfo d = info.
Proof.
  unfold availableModels. split.
  - by rewrite !length_fmap, length_map_to_list.
  - intros info. rewrite list_elem_of_fmap. split.
    + intros (d & -> & Hd). apply list_elem_of_fmap in Hd as ([id d'] & -> & Hin).
      apply elem_of_map_to_list in Hin. eauto.
    + intros (id & d & Hd & <-). exists d. split; [done|].
      apply list_elem_of_fmap. exists (id, d). split; [done|].
      by apply elem_of_map_to_list.
Qed.

End Footprint.

(** ** Appends that fail *)

Section Appends.
Context {float : Type} `{!Platform float} `{!Disk}.


End Appends.

(** * The further properties on the sample platform *)

(** Two batches, both with output: the file reads back as the outputs. *)
Lemma scratch_file_reads_back_witness :
  ∃ outputs text,
    Forall2 (@produced Z online) [["a"; "bb"]; ["ccc"]] outputs ∧
    disk (@embedLoop Z online reliable small_batches scratch0 2 0 [["a"; "bb"]; ["ccc"]]
            boot).2 !! scratch0 = Some text ∧
    (Forall (λ output, output ≠ []) outputs → parse text = Some outputs).
Proof.
  refine (@scratch_file_reads_back Z online small_batches scratch0
            [["a"; "bb"]; ["ccc"]] boot
            (@embedLoop Z online reliable small_batches scratch0 2 0
               [["a"; "bb"]; ["ccc"]] boot).2 _ _ _).
  - discriminate.
  - reflexivity.
  - vm_compute; reflexivity.
Defined.

(** Offline, the file left behind holds the opening bracket only. *)
Lemma scratch_file_left_unterminated_witness :
  ∃ text,
    disk (@embedChunks Z offline reliable default_embedder ["hello"] boot).2
      !! @scratchPath Z offline boot = Some text ∧
    parse text = None.
Proof.
  refine (@scratch_file_left_unterminated Z offline default_embedder ["hello"]
            boot "fallback unreachable"
            (@embedChunks Z offline reliable default_embedder ["hello"] boot).2 _ _).
  - reflexivity.
  - vm_compute; reflexivity.
Defined.


(** A first batch without output and a last batch with one. *)
Lemma embedChunks_fixed_pipeline_witness :
  ∃ w',
    @embedChunks Z online_nonblank reliable small_batches [EmptyString; "x"; "a"] boot
    = (Ret (Some (concat (infer_nonblank <$> [[EmptyString; "x"]] ++ [["a"]]))),
       w').
Proof.
  refine (@embedChunks_fixed_pipeline Z online_nonblank small_batches
            infer_nonblank [EmptyString; "x"; "a"] boot
            [[EmptyString; "x"]] ["a"] _ _ _ _).
  - reflexivity.
  - reflexivity.
  - discriminate.
  - reflexivity.
Defined.

(** The default model has no query prefix: the text is embedded as it is. *)
Lemma embedTextInput_single_text_witness :
  ∃ w', @embedTextInput Z online reliable default_embedder (Str "hello") boot
        = (Ret [5], w').
Proof.
  refine (@embedTextInput_single_text Z online default_embedder infer_lengths
            "hello" boot [5] [] _ _ _ _).
  - reflexivity.
  - vm_compute; reflexivity.
  - vm_compute; reflexivity.
  - reflexivity.
Defined.

(** The empty list makes embedTextInput throw. *)
Lemma embedTextInput_empty_list_witness :
  @embedTextInput Z online reliable small_batches (Arr []) boot
  = (Throw (ENOENT (@scratchPath Z online boot)), next_uuid boot).
Proof.
  refine (@embedTextInput_empty_list Z online small_batches boot _ _);
    reflexivity.
Defined.

(** The fallback host serves the model: the call returns with the mark
    set. *)
Lemma embedChunks_marks_downloaded_witness :
  modelDownloaded
    (@embedChunks Z primary_down reliable default_embedder ["hello"] boot).2 = true.
Proof.
  refine (@embedChunks_marks_downloaded Z primary_down default_embedder
            ["hello"] boot (Some [[5]])
            (@embedChunks Z primary_down reliable default_embedder ["hello"] boot).2
            _ _).
  - reflexivity.
  - vm_compute; reflexivity.
Defined.

